(** * The agent_events queue of dental_agents: store, lease and worker step

    A shallow embedding of [dental_agents/db.py] (the event store:
    [enqueue_event], [lock_next_event], [mark_done], [mark_failed],
    [log_run]) and of [dental_agents/worker.py] ([_parse_payload],
    [_dispatch] and the processing step of [run_loop]).

    Conventions of the embedding.
    - A table with a primary key is a finite map from the key to the
      remaining columns: [agent_events] is a [gmap Z event] keyed by [id],
      [idempotency_locks] a [gmap string lock] keyed by [lock_key].
    - [DATETIME] values and [NOW()] are seconds on an integer time line
      ([Z]); every function that runs a statement using [NOW()] takes the
      current time [now] as an argument.
    - [INT]/[BIGINT] columns and Python integers are [Z]; nullable columns
      are [option].
    - Text is [string], one [ascii] per character: the texts of the
      embedding are those over the first 256 code points, and [s[:n]] is
      [substring 0 n s].
    - A statement is rejected, and the call raises, when it hands [NULL]
      to a [NOT NULL] column, an integer to a [DATETIME] column or a date to
      an [INT] column (the server's strict mode, its default), or names a
      column the table does not have; lost connections, deadlocks and other
      server failures are not part of the embedding.  The functions of [db.py] run inside the caller's
      transaction; workers interleave at the granularity of these functions
      and of the transactions of [run_loop].
    - The constants of [dental_agents/config.py] (not part of the sources at
      hand) are the fields of a [config] record.
    - The answers of [_has_column] are the fields of a [schema] record;
      [ensure_schema] is the schema that the [CREATE TABLE] statements of
      [ensure_schema] produce, where every probed column exists. *)

From Stdlib Require Import ZArith String Ascii List Bool Lia.
From stdpp Require Import gmap strings list fin_maps.

Local Open Scope string_scope.
Local Open Scope Z_scope.

(** ** Data model *)

(** [status ENUM('NEW','PENDING','PROCESSING','DONE','FAILED')] *)
Inductive status : Type := NEW | PENDING | PROCESSING | DONE | FAILED.

#[global] Instance status_eq_dec : EqDecision status.
Proof. solve_decision. Defined.

(** One row of [agent_events], without its key [id]. *)
Record event : Type := mkEvent {
  event_type : string;
  payload_json : option string;
  ev_status : status;
  priority : Z;
  attempts : Z;
  max_attempts : Z;
  available_at : Z;
  locked_by : option string;
  locked_at : option Z;
  last_error : option string;
  done_at : option Z;
  correlation_id : option string;
  created_by_user_id : option Z;
  created_at : Z;
  updated_at : Z
}.

(** One row of [agent_runs] as [log_run] writes it; [id] and [created_at]
    are assigned by the server and never read back by the code. *)
Record run : Type := mkRun {
  actor : string;
  event_id : option Z;
  run_status : string;
  error_text : option string
}.

(** The part of the database the queue code touches: the [agent_events]
    table with its [AUTO_INCREMENT] counter, and the append-only
    [agent_runs] log (oldest first). *)
Record db : Type := mkDb {
  agent_events : gmap Z event;
  next_id : Z;
  agent_runs : list run
}.

(** Constants imported from [dental_agents.config]. *)
Record config : Type := mkConfig {
  WORKER_ID : string;
  LOCK_TTL_SECONDS : Z;
  MAX_EVENT_ATTEMPTS : Z
}.

(** The columns whose presence the code probes with [_has_column]. *)
Record schema : Type := mkSchema {
  has_available_at : bool;
  has_priority : bool;
  has_max_attempts : bool;
  has_created_by : bool;
  has_corr : bool;
  has_locked_by : bool;
  has_locked_at : bool
}.

(** The schema created by [ensure_schema]: all probed columns exist. *)
Definition ensure_schema : schema :=
  mkSchema true true true true true true true.

Definition empty_db : db := mkDb ∅ 1 [].

Definition set_events (d : db) (m : gmap Z event) : db :=
  mkDb m (next_id d) (agent_runs d).

(** ** db.py: log_run *)

Definition log_run (d : db) (a : string) (eid : option Z) (st : string)
    (err : option string) : db :=
  mkDb (agent_events d) (next_id d) (agent_runs d ++ [mkRun a eid st err]).

(** ** db.py: enqueue_event *)

(** A value that the [INSERT] hands to a column: [NULL] (Python's
    [None]), a text, an integer, a date and time (the text
    ["YYYY-MM-DD HH:MM:SS"] of a point on the time line, or [NOW()]), or a
    value of the [status] enumeration. *)
Inductive sqlval : Type :=
  | SqlNull
  | SqlText (s : string)
  | SqlNum (z : Z)
  | SqlTime (t : Z)
  | SqlStatus (st : status).

(** An entry of [vals]: the placeholder [%s], the literal [0] or
    [NOW()]. *)
Inductive valexpr : Type := Placeholder | Literal0 | LiteralNow.

(** [l.insert(i, x)] for [i >= 0]: past the end of the list it appends. *)
Definition list_insert_at {A : Type} (i : nat) (x : A) (l : list A) : list A :=
  (take i l ++ x :: drop i l)%list.

(** [l.insert(-2, x)] *)
Definition list_insert_before_last_two {A : Type} (x : A) (l : list A) : list A :=
  list_insert_at (length l - 2) x l.

(** The statement as the server sees it: each column of [cols] with the
    value of its entry in [vals], a placeholder taking the next parameter.
    [None] when placeholders and parameters do not match in number. *)
Fixpoint bind_params (now : Z) (cols : list string) (vals : list valexpr)
    (params : list sqlval) : option (list (string * sqlval)) :=
  match cols, vals with
  | [], [] =>
      match params with
      | [] => Some []
      | _ :: _ => None
      end
  | c :: cols', v :: vals' =>
      match v with
      | Placeholder =>
          match params with
          | p :: params' =>
              option_map (cons (c, p)) (bind_params now cols' vals' params')
          | [] => None
          end
      | Literal0 =>
          option_map (cons (c, SqlNum 0)) (bind_params now cols' vals' params)
      | LiteralNow =>
          option_map (cons (c, SqlTime now)) (bind_params now cols' vals' params)
      end
  | _, _ => None
  end.

(** The value the statement gives to column [c], if it names it. *)
Fixpoint column_value (b : list (string * sqlval)) (c : string) : option sqlval :=
  match b with
  | [] => None
  | (c', v) :: b' => if String.eqb c' c then Some v else column_value b' c
  end.

(** An [INT NOT NULL] column with default [dflt]. *)
Definition num_column (dflt : Z) (b : list (string * sqlval)) (c : string)
    : option Z :=
  match column_value b c with
  | None => Some dflt
  | Some (SqlNum z) => Some z
  | Some _ => None
  end.

(** A [DATETIME NOT NULL] column with default [dflt]. *)
Definition time_column (dflt : Z) (b : list (string * sqlval)) (c : string)
    : option Z :=
  match column_value b c with
  | None => Some dflt
  | Some (SqlTime t) => Some t
  | Some _ => None
  end.

(** A nullable numeric column. *)
Definition num_column_null (b : list (string * sqlval)) (c : string)
    : option (option Z) :=
  match column_value b c with
  | None | Some SqlNull => Some None
  | Some (SqlNum z) => Some (Some z)
  | Some _ => None
  end.

(** A text column that is [NOT NULL] and has no default. *)
Definition text_column (b : list (string * sqlval)) (c : string) : option string :=
  match column_value b c with
  | Some (SqlText s) => Some s
  | _ => None
  end.

(** A nullable text column. *)
Definition text_column_null (b : list (string * sqlval)) (c : string)
    : option (option string) :=
  match column_value b c with
  | None | Some SqlNull => Some None
  | Some (SqlText s) => Some (Some s)
  | Some _ => None
  end.

(** The [status] column, [NOT NULL DEFAULT 'NEW']. *)
Definition status_column (b : list (string * sqlval)) : option status :=
  match column_value b "status" with
  | None => Some NEW
  | Some (SqlStatus st) => Some st
  | Some _ => None
  end.

(** The row that the [INSERT] creates at time [now], by the column
    declarations of [ensure_schema]: a column the statement does not name
    takes its default, and the row is refused ([None]) when a [NOT NULL]
    column is handed [NULL], or a column a value that is not of its type (an
    integer for a [DATETIME], a date for an [INT]: the server's strict mode,
    its default). *)
Definition inserted_row (now : Z) (b : list (string * sqlval)) : option event :=
  ty ← text_column b "event_type";
  payload ← text_column_null b "payload_json";
  st ← status_column b;
  prio ← num_column 50 b "priority";
  att ← num_column 0 b "attempts";
  max_att ← num_column 8 b "max_attempts";
  avail ← time_column now b "available_at";
  corr ← text_column_null b "correlation_id";
  created_by ← num_column_null b "created_by_user_id";
  created ← time_column now b "created_at";
  updated ← time_column now b "updated_at";
  Some {|
    event_type := ty;
    payload_json := payload;
    ev_status := st;
    priority := prio;
    attempts := att;
    max_attempts := max_att;
    available_at := avail;
    locked_by := None;
    locked_at := None;
    last_error := None;
    done_at := None;
    correlation_id := corr;
    created_by_user_id := created_by;
    created_at := created;
    updated_at := updated
  |}.

(** The lists [cols], [vals] and [params] as [enqueue_event] assembles
    them.  [payload_text] is the text [json.dumps(payload or {})]; [run_at]
    is [None] when the keyword is left out, as in [_enqueue_periodics]. *)
Definition enqueue_statement (sch : schema) (cfg : config) (ty : string)
    (payload_text : string) (st : status) (prio : Z) (run_at : option Z)
    (max_att : option Z) (created_by : option Z) (corr : option string)
    : list string * list valexpr * list sqlval :=
  let cols := ["event_type"; "payload_json"; "status"; "attempts";
               "created_at"; "updated_at"] in
  let vals := [Placeholder; Placeholder; Placeholder; Literal0;
               LiteralNow; LiteralNow] in
  let params := [SqlText ty; SqlText payload_text; SqlStatus st] in
  let '(cols, vals, params) :=
    if has_priority sch then
      (list_insert_at 3 "priority" cols, list_insert_at 3 Placeholder vals,
       list_insert_at 3 (SqlNum prio) params)
    else (cols, vals, params) in
  let '(cols, vals, params) :=
    if has_max_attempts sch then
      (list_insert_at 4 "max_attempts" cols, list_insert_at 4 Placeholder vals,
       list_insert_at 4
         (SqlNum match max_att with
                 | Some m => if m =? 0 then MAX_EVENT_ATTEMPTS cfg else m
                 | None => MAX_EVENT_ATTEMPTS cfg
                 end) params)
    else (cols, vals, params) in
  let '(cols, vals, params) :=
    if has_available_at sch then
      (list_insert_at 4 "available_at" cols, list_insert_at 4 Placeholder vals,
       list_insert_at 4
         match run_at with
         | Some t => SqlTime t
         | None => SqlNull
         end params)
    else (cols, vals, params) in
  let '(cols, vals, params) :=
    match created_by with
    | Some u =>
        if has_created_by sch then
          (list_insert_before_last_two "created_by_user_id" cols,
           list_insert_before_last_two Placeholder vals,
           (params ++ [SqlNum u])%list)
        else (cols, vals, params)
    | None => (cols, vals, params)
    end in
  match corr with
  | Some c =>
      if has_corr sch && negb (String.eqb c "") then
        (list_insert_before_last_two "correlation_id" cols,
         list_insert_before_last_two Placeholder vals,
         (params ++ [SqlText (substring 0 64 c)])%list)
      else (cols, vals, params)
  | None => (cols, vals, params)
  end.

(** [enqueue_event(conn, event_type, payload, status=..., ...)] at time
    [now]: the database after the call and the id returned, [None] when the
    [INSERT] is rejected and the call raises, nothing having been written.
    The function opens no transaction of its own. *)
Definition enqueue_event (sch : schema) (cfg : config) (now : Z) (d : db)
    (ty : string) (payload_text : string) (st : status) (prio : Z)
    (run_at : option Z) (max_att : option Z) (created_by : option Z)
    (corr : option string) : db * option Z :=
  let '(cols, vals, params) :=
    enqueue_statement sch cfg ty payload_text st prio run_at max_att
      created_by corr in
  match bind_params now cols vals params ≫= inserted_row now with
  | Some row =>
      let lastrowid := next_id d in
      (mkDb (<[lastrowid := row]> (agent_events d)) (lastrowid + 1) (agent_runs d),
       Some lastrowid)
  | None => (d, None)
  end.

(** ** db.py: lock_next_event *)

(** [status IN ('NEW','PENDING')] *)
Definition status_claimable (s : status) : bool :=
  match s with
  | NEW | PENDING => true
  | _ => false
  end.

(** [(locked_at IS NULL OR locked_at < DATE_SUB(NOW(), INTERVAL ttl SECOND))] *)
Definition lease_free (cfg : config) (now : Z) (r : event) : bool :=
  match locked_at r with
  | None => true
  | Some t => t <? now - LOCK_TTL_SECONDS cfg
  end.

(** The [WHERE] clause assembled in [where]. *)
Definition eligible (sch : schema) (cfg : config) (now : Z) (r : event) : bool :=
  status_claimable (ev_status r)
  && (if has_available_at sch then available_at r <=? now else true)
  && (if has_locked_at sch then lease_free cfg now r else true).

(** [ORDER BY priority ASC, id ASC]: does [x] come strictly before [y]? *)
Definition before (x y : Z * event) : bool :=
  (priority (snd x) <? priority (snd y))
  || ((priority (snd x) =? priority (snd y)) && (fst x <? fst y)).

(** [ORDER BY ... LIMIT 1] over a result set. *)
Fixpoint first_in_order (l : list (Z * event)) : option (Z * event) :=
  match l with
  | [] => None
  | x :: l' =>
      match first_in_order l' with
      | None => Some x
      | Some y => if before x y then Some x else Some y
      end
  end.

(** The [SELECT * ... WHERE ... ORDER BY priority ASC, id ASC LIMIT 1]. *)
Definition select_candidate (sch : schema) (cfg : config) (now : Z)
    (m : gmap Z event) : option (Z * event) :=
  first_in_order
    (List.filter (fun x => eligible sch cfg now (snd x)) (map_to_list m)).

(** The [SET] lists of the three [UPDATE] statements ("claim it"). *)
Definition claim_update (sch : schema) (cfg : config) (now : Z) (r : event) : event :=
  if has_locked_by sch && has_locked_at sch then
    {| event_type := event_type r; payload_json := payload_json r;
       ev_status := PROCESSING; priority := priority r;
       attempts := attempts r + 1; max_attempts := max_attempts r;
       available_at := available_at r;
       locked_by := Some (WORKER_ID cfg); locked_at := Some now;
       last_error := last_error r; done_at := done_at r;
       correlation_id := correlation_id r;
       created_by_user_id := created_by_user_id r;
       created_at := created_at r; updated_at := now |}
  else if has_locked_at sch then
    {| event_type := event_type r; payload_json := payload_json r;
       ev_status := PROCESSING; priority := priority r;
       attempts := attempts r + 1; max_attempts := max_attempts r;
       available_at := available_at r;
       locked_by := locked_by r; locked_at := Some now;
       last_error := last_error r; done_at := done_at r;
       correlation_id := correlation_id r;
       created_by_user_id := created_by_user_id r;
       created_at := created_at r; updated_at := now |}
  else
    {| event_type := event_type r; payload_json := payload_json r;
       ev_status := PROCESSING; priority := priority r;
       attempts := attempts r + 1; max_attempts := max_attempts r;
       available_at := available_at r;
       locked_by := locked_by r; locked_at := locked_at r;
       last_error := last_error r; done_at := done_at r;
       correlation_id := correlation_id r;
       created_by_user_id := created_by_user_id r;
       created_at := created_at r; updated_at := now |}.

(** [lock_next_event(conn)]: the new database and the row returned
    ([None] when the [SELECT] finds nothing); the returned row is the one
    re-read after the [UPDATE]. *)
Definition lock_next_event (sch : schema) (cfg : config) (now : Z) (d : db)
    : db * option (Z * event) :=
  match select_candidate sch cfg now (agent_events d) with
  | None => (d, None)
  | Some (eid, _) =>
      let m' := alter (claim_update sch cfg now) eid (agent_events d) in
      (set_events d m', (fun r => (eid, r)) <$> (m' !! eid))
  end.

(** ** db.py: mark_done

    [mark_done] and [mark_failed] below are the two functions on a table
    that has the columns their statements name, as the table of
    [ensure_schema] does; [mark_done_on] and [mark_failed_on] further down
    say what becomes of the calls on a table that lacks some. *)

Definition done_update (now : Z) (r : event) : event :=
  {| event_type := event_type r; payload_json := payload_json r;
     ev_status := DONE; priority := priority r;
     attempts := attempts r; max_attempts := max_attempts r;
     available_at := available_at r;
     locked_by := None; locked_at := None;
     last_error := last_error r; done_at := Some now;
     correlation_id := correlation_id r;
     created_by_user_id := created_by_user_id r;
     created_at := created_at r; updated_at := now |}.

Definition mark_done (now : Z) (d : db) (eid : Z) : db :=
  set_events d (alter (done_update now) eid (agent_events d)).

(** ** db.py: mark_failed *)

(** [min(600, max(10, (2 ** min(attempts, 8)) * 5))].  For a negative
    count Python's power is a fraction below 1 and [Z.pow] is 0; both are
    below the floor, so the result is 10 either way. *)
Definition backoff (n : Z) : Z :=
  Z.min 600 (Z.max 10 (2 ^ (Z.min n 8) * 5)).

(** [int(r.get("attempts") or 0)] with [r = cur.fetchone() or {}]. *)
Definition read_attempts (o : option event) : Z :=
  match o with
  | Some r => attempts r
  | None => 0
  end.

(** [int(r.get("max_attempts") or MAX_EVENT_ATTEMPTS)]: a missing row and
    a stored 0 are both falsy and give the configured default. *)
Definition read_max_attempts (cfg : config) (o : option event) : Z :=
  match o with
  | Some r => if max_attempts r =? 0 then MAX_EVENT_ATTEMPTS cfg else max_attempts r
  | None => MAX_EVENT_ATTEMPTS cfg
  end.

(** The [SET] list of the first [UPDATE] (terminal). *)
Definition failed_update (now : Z) (err : string) (r : event) : event :=
  {| event_type := event_type r; payload_json := payload_json r;
     ev_status := FAILED; priority := priority r;
     attempts := attempts r; max_attempts := max_attempts r;
     available_at := available_at r;
     locked_by := None; locked_at := None;
     last_error := Some err; done_at := done_at r;
     correlation_id := correlation_id r;
     created_by_user_id := created_by_user_id r;
     created_at := created_at r; updated_at := now |}.

(** The [SET] list of the second [UPDATE] (retry after [delay] seconds). *)
Definition retry_update (now : Z) (err : string) (delay : Z) (r : event) : event :=
  {| event_type := event_type r; payload_json := payload_json r;
     ev_status := NEW; priority := priority r;
     attempts := attempts r; max_attempts := max_attempts r;
     available_at := now + delay;
     locked_by := None; locked_at := None;
     last_error := Some err; done_at := done_at r;
     correlation_id := correlation_id r;
     created_by_user_id := created_by_user_id r;
     created_at := created_at r; updated_at := now |}.

(** The branch condition [attempts >= max_attempts] on the values read. *)
Definition exhausted (cfg : config) (o : option event) : bool :=
  read_max_attempts cfg o <=? read_attempts o.

Definition mark_failed (cfg : config) (now : Z) (d : db) (eid : Z)
    (err : string) : db :=
  let r := agent_events d !! eid in
  let delay := backoff (read_attempts r) in
  if exhausted cfg r then
    set_events d (alter (failed_update now err) eid (agent_events d))
  else
    set_events d (alter (retry_update now err delay) eid (agent_events d)).

(** ** db.py: the finalisers on a table that lacks columns

    [lock_next_event] probes for [locked_by], [locked_at] and
    [available_at]; [mark_done] and [mark_failed] do not: their statements
    name [locked_by] and [locked_at] (and [max_attempts], [available_at])
    whatever the table has, and on a table without one of the columns a
    statement names the server rejects the statement and the call raises.
    [None] is that exception; otherwise the call does what [mark_done] and
    [mark_failed] do. *)
Definition mark_done_on (sch : schema) (now : Z) (d : db) (eid : Z) : option db :=
  if has_locked_by sch && has_locked_at sch then Some (mark_done now d eid)
  else None.

Definition mark_failed_on (sch : schema) (cfg : config) (now : Z) (d : db)
    (eid : Z) (err : string) : option db :=
  (* SELECT attempts, max_attempts *)
  if has_max_attempts sch then
    if exhausted cfg (agent_events d !! eid) then
      (* SET status='FAILED', last_error, locked_by, locked_at *)
      if has_locked_by sch && has_locked_at sch
      then Some (mark_failed cfg now d eid err) else None
    else
      (* SET status='NEW', last_error, locked_by, locked_at, available_at *)
      if has_locked_by sch && has_locked_at sch && has_available_at sch
      then Some (mark_failed cfg now d eid err) else None
  else None.

#[global] Instance run_eq_dec : EqDecision run.
Proof. solve_decision. Defined.

(** The log without the last entry equal to [x], if there is one. *)
Fixpoint remove_last_entry (x : run) (l : list run) : list run :=
  match l with
  | [] => []
  | y :: l' =>
      if bool_decide (x ∈ l') then y :: remove_last_entry x l'
      else if bool_decide (y = x) then l'
      else y :: l'
  end.

(** ** The idempotency_locks table and claim *)

(** One row of [idempotency_locks] (db.py, [ensure_schema]), without its
    key [lock_key]. *)
Record lock : Type := mkLock {
  lock_owner : string;      (* locked_by *)
  expires_at : Z;
  lock_updated_at : Z       (* updated_at *)
}.

(** Modelled from the spec: [claim(conn, key, ttl_seconds)] of
    [dental_agents/idempotency.py], which [worker.py] imports and whose
    source is missing.  Spec 4.3: insert a lock row for [key]; if it exists
    with [expires_at > now] the claim fails; if it exists but has expired it
    is re-armed with the new [locked_by] and [expires_at = now + ttl] and the
    claim succeeds. *)
Definition claim (cfg : config) (now : Z) (locks : gmap string lock)
    (key : string) (ttl_seconds : Z) : gmap string lock * bool :=
  let armed := mkLock (WORKER_ID cfg) (now + ttl_seconds) now in
  match locks !! key with
  | None => (<[key := armed]> locks, true)
  | Some l =>
      if now <? expires_at l then (locks, false)
      else (<[key := armed]> locks, true)
  end.

(** ** worker.py *)

(** A decoded JSON document, the [payload] handed to the handlers. *)
#[local] Set Warnings "-register-all".
Inductive json : Type :=
  | JNull
  | JBool (b : bool)
  | JNumber (lexeme : string)
  | JString (s : string)
  | JArray (items : list json)
  | JObject (members : list (string * json)).

(** The module-level agent instances [APPT], [INV], [REV], [CASE]. *)
Inductive agent : Type := APPT | INV | REV | CASE.

(** The branches of [_dispatch]: the agents whose [handle] is called, in
    call order. *)
Definition route (ty : string) : list agent :=
  if String.eqb ty "AppointmentCreated" then [APPT; REV]
  else if String.eqb ty "AppointmentCompleted" then [APPT; INV; REV; CASE]
  else if String.eqb ty "CaseUpdated" || String.eqb ty "CaseGenerateSummary"
  then [CASE]
  else if String.eqb ty "AppointmentAutoScheduleRequested"
          || String.eqb ty "AppointmentMonitorTick"
  then [APPT]
  else if String.prefix "Inventory" ty || String.eqb ty "InventoryDailyTick"
  then [INV]
  else if String.prefix "Revenue" ty
          || (String.eqb ty "ARRankAndNotify" || String.eqb ty "RevenueDailyTick")
  then [REV]
  else [].

Section Worker.

(** [json.loads]: [None] when it raises. *)
Variable json_loads : string -> option json.

(** [agent.handle(conn, event_type, event_id, payload)] of the domain
    agents, which live outside the queue code: the database after the
    call, and the error text when the call raises (the writes made before
    the exception stay in the open transaction). *)
Variable handle : agent -> db -> string -> Z -> json -> db * option string.

(** [row.get("payload_json") or "{}"] *)
Definition payload_text (r : event) : string :=
  match payload_json r with
  | None => "{}"
  | Some s => if String.eqb s "" then "{}" else s
  end.

(** [_parse_payload(row)]: the [except Exception] branch returns [{}]. *)
Definition _parse_payload (r : event) : json :=
  match json_loads (payload_text r) with
  | Some v => v
  | None => JObject []
  end.

(** Consecutive [X.handle(...)] calls; the first exception ends the
    sequence. *)
Fixpoint call_handlers (l : list agent) (d : db) (eid : Z) (ty : string)
    (payload : json) : db * option string :=
  match l with
  | [] => (d, None)
  | a :: l' =>
      match handle a d ty eid payload with
      | (d', None) => call_handlers l' d' eid ty payload
      | (d', Some e) => (d', Some e)
      end
  end.

Definition _dispatch (d : db) (eid : Z) (ty : string) (payload : json)
    : db * option string :=
  call_handlers (route ty) d eid ty payload.

(** Step 3 of an iteration of [run_loop] ("process event") on the table
    of [ensure_schema], for the row that [lock_next_event] returned; [now]
    is the time of the finalising statement. *)
Definition process_event (cfg : config) (now : Z) (d : db)
    (row : Z * event) : db :=
  let eid := fst row in
  let ty := event_type (snd row) in
  let payload := _parse_payload (snd row) in
  let d1 := log_run d "worker" (Some eid) "STARTED" None in
  match _dispatch d1 eid ty payload with
  | (d2, None) =>
      log_run (mark_done now d2 eid) "worker" (Some eid) "DONE" None
  | (d2, Some err) =>
      log_run (mark_failed cfg now d2 eid err) "worker" (Some eid)
        "FAILED" (Some err)
  end.

(** Step 3 on any table, in two parts, since the statements of other
    workers can come in between.  The first statement of the transaction
    writes the STARTED entry. *)
Definition step3_start (d : db) (row : Z * event) : db :=
  log_run d "worker" (Some (fst row)) "STARTED" None.

(** [conn.rollback()] in step 3, with [d] the database before [_dispatch]
    and [d2] the one after it: what the transaction wrote is undone, that is
    the STARTED entry and the writes of the handlers; the [AUTO_INCREMENT]
    counter is not transactional and stays where it is. *)
Definition rollback_step3 (d d2 : db) (eid : Z) : db :=
  mkDb (agent_events d) (next_id d2)
    (remove_last_entry (mkRun "worker" (Some eid) "STARTED" None) (agent_runs d)).

(** The rest of step 3, from [_dispatch] to [commit] or [rollback], on a
    table with the columns of [sch]; [d] is the database that holds the
    STARTED entry.  When [mark_done] raises, the [except] branch calls
    [mark_failed], whose statements name the columns [mark_done] names:
    it raises as well (lemma [mark_failed_raises_where_mark_done_does]) and
    the transaction is rolled back. *)
Definition step3_finish (sch : schema) (cfg : config) (now : Z) (d : db)
    (row : Z * event) : db :=
  let eid := fst row in
  let ty := event_type (snd row) in
  let payload := _parse_payload (snd row) in
  match _dispatch d eid ty payload with
  | (d2, None) =>
      match mark_done_on sch now d2 eid with
      | Some d3 => log_run d3 "worker" (Some eid) "DONE" None
      | None => rollback_step3 d d2 eid
      end
  | (d2, Some err) =>
      match mark_failed_on sch cfg now d2 eid err with
      | Some d3 => log_run d3 "worker" (Some eid) "FAILED" (Some err)
      | None => rollback_step3 d d2 eid
      end
  end.

(** Steps 2 and 3 of an iteration of [run_loop] with no other worker in
    between: lock the next event at [t_lock], then process it, finalising at
    [t_end]. *)
Definition run_loop_step (sch : schema) (cfg : config) (t_lock t_end : Z)
    (d : db) : db :=
  match lock_next_event sch cfg t_lock d with
  | (d1, None) => d1
  | (d1, Some row) => step3_finish sch cfg t_end (step3_start d1 row) row
  end.

End Worker.

(** * Notions of the specification and example data

    Predicates that state the claims in the specification's words, the
    operations put together as a transition relation and as iterations of
    the worker loop, and the concrete queues the examples run on. *)

(** [x] is at or before [y] in [ORDER BY priority ASC, id ASC]. *)
Definition at_or_before (x y : Z * event) : Prop :=
  priority (snd x) < priority (snd y)
  \/ (priority (snd x) = priority (snd y) /\ fst x <= fst y).

(** The eligibility predicate in the words of the specification: status
    is NEW or PENDING, [available_at <= now], and the lease is absent or
    older than the lease TTL. *)
Definition claimable_by_spec (cfg : config) (now : Z) (r : event) : Prop :=
  (ev_status r = NEW \/ ev_status r = PENDING)
  /\ available_at r <= now
  /\ (locked_at r = None
      \/ exists t, locked_at r = Some t /\ t < now - LOCK_TTL_SECONDS cfg).

(** Two workers of one deployment: lease TTL 300 seconds, default
    maximum of 8 attempts. *)
Definition cfg_w1 : config := mkConfig "W1" 300 8.
Definition cfg_w2 : config := mkConfig "W2" 300 8.

(** Three events A(10), B(10), C(5) enqueued in this order at time 0 into
    the empty queue. *)
Definition queue_ABC : db :=
  let d1 := fst (enqueue_event ensure_schema cfg_w1 0 empty_db
                   "A" "{}" NEW 10 (Some 0) None None None) in
  let d2 := fst (enqueue_event ensure_schema cfg_w1 0 d1
                   "B" "{}" NEW 10 (Some 0) None None None) in
  fst (enqueue_event ensure_schema cfg_w1 0 d2
         "C" "{}" NEW 5 (Some 0) None None None).

(** The row of C as enqueued. *)
Definition row_C : event :=
  mkEvent "C" (Some "{}") NEW 5 0 8 0 None None None None None None 0 0.

(** The event types returned by [n] successive [lock_next_event] calls. *)
Fixpoint claimed_types (n : nat) (cfg : config) (now : Z) (d : db) : list string :=
  match n with
  | O => []
  | S n' =>
      match lock_next_event ensure_schema cfg now d with
      | (d', Some (_, r)) => event_type r :: claimed_types n' cfg now d'
      | (_, None) => []
      end
  end.

(** One event, enqueued at time 0 and claimed by worker W1 at time 10;
    W1 then dies: no [mark_done], no [mark_failed]. *)
Definition queue_one : db :=
  fst (enqueue_event ensure_schema cfg_w1 0 empty_db
         "AppointmentCreated" "{}" NEW 50 (Some 0) None None None).

Definition queue_one_leased : db :=
  fst (lock_next_event ensure_schema cfg_w1 10 queue_one).

Definition leased_row : event :=
  mkEvent "AppointmentCreated" (Some "{}") PROCESSING 50 1 8 0
    (Some "W1") (Some 10) None None None None 0 10.

(** [clamp(x, lower, upper)] of the specification. *)
Definition clamp (x lower upper : Z) : Z :=
  if x <? lower then lower else if upper <? x then upper else x.

(** The backoff policy in the words of the specification. *)
Definition backoff_by_spec (n : Z) : Z :=
  clamp (2 ^ (Z.min n 8) * 5) 10 600.

(** The key is free at [now]: no lock row, or one that has expired. *)
Definition key_free (now : Z) (locks : gmap string lock) (key : string) : Prop :=
  match locks !! key with
  | None => True
  | Some l => expires_at l <= now
  end.

(** The payload column is NULL, empty, or text that [json.loads]
    rejects. *)
Definition payload_unusable (json_loads : string -> option json) (r : event) : Prop :=
  payload_json r = None \/ payload_json r = Some ""
  \/ exists s, payload_json r = Some s /\ json_loads s = None.

(** A stand-in for [json.loads] for the examples: it decodes the text
    of the empty object and rejects every other text. *)
Definition json_loads_braces (s : string) : option json :=
  if String.eqb s "{}" then Some (JObject []) else None.

(** Handlers for the examples: one that always returns, one that always
    raises, neither writing to the queue tables. *)
Definition handle_returns : agent -> db -> string -> Z -> json -> db * option string :=
  fun _ d _ _ _ => (d, None).

Definition handle_raises (e : string)
    : agent -> db -> string -> Z -> json -> db * option string :=
  fun _ d _ _ _ => (d, Some e).

Definition row_with_payload (ty : string) (p : option string) : event :=
  mkEvent ty p PROCESSING 50 1 8 0 (Some "W1") (Some 10) None None None None 0 10.

(** The event type is none of the names [_dispatch] compares with and has
    neither of the prefixes it tests. *)
Definition unknown_event_type (ty : string) : Prop :=
  ~ In ty ["AppointmentCreated"; "AppointmentCompleted"; "CaseUpdated";
           "CaseGenerateSummary"; "AppointmentAutoScheduleRequested";
           "AppointmentMonitorTick"; "InventoryDailyTick"; "ARRankAndNotify";
           "RevenueDailyTick"]
  /\ String.prefix "Inventory" ty = false
  /\ String.prefix "Revenue" ty = false.

(** An event of a type no branch of [_dispatch] knows, enqueued at time 0
    and claimed by W1 at time 10. *)
Definition queue_unknown_leased : db :=
  fst (lock_next_event ensure_schema cfg_w1 10
         (fst (enqueue_event ensure_schema cfg_w1 0 empty_db
                 "PatientBirthday" "{}" NEW 50 (Some 0) None None None))).

(** The maximum that [mark_failed] compares [attempts] with: the stored
    [max_attempts], or the configured default when the stored value is 0. *)
Definition effective_max (M : Z) (r : event) : Z :=
  if max_attempts r =? 0 then M else max_attempts r.

(** Every id in the table is below the [AUTO_INCREMENT] counter. *)
Definition ids_below_counter (d : db) : Prop :=
  forall eid, is_Some (agent_events d !! eid) -> eid < next_id d.

(** One operation of the event store or a run-log write, by any worker
    whose default maximum is [M]. *)
Inductive store_step (M : Z) : db -> db -> Prop :=
  | step_enqueue sch cfg now d ty p st prio run_at ma cb corr :
      store_step M d
        (fst (enqueue_event sch cfg now d ty p st prio run_at ma cb corr))
  | step_lock sch cfg now d :
      store_step M d (fst (lock_next_event sch cfg now d))
  | step_done now d eid :
      store_step M d (mark_done now d eid)
  | step_failed cfg now d eid err :
      MAX_EVENT_ATTEMPTS cfg = M ->
      store_step M d (mark_failed cfg now d eid err)
  | step_log d a eid st err :
      store_step M d (log_run d a eid st err).

(** The row of [eid] is out of the queue for good: not claimable and with
    its attempts used up. *)
Definition spent (M : Z) (eid : Z) (d : db) : Prop :=
  ids_below_counter d /\
  exists r, agent_events d !! eid = Some r
    /\ status_claimable (ev_status r) = false
    /\ effective_max M r <= attempts r.

(** The configuration of worker [w] of the deployment [cfg]: workers
    differ in [WORKER_ID] only. *)
Definition worker_config (cfg : config) (w : string) : config :=
  mkConfig w (LOCK_TTL_SECONDS cfg) (MAX_EVENT_ATTEMPTS cfg).

(** What a worker process holds between the transactions of an
    iteration: the row that step 2 returned, before and after the STARTED
    entry of step 3 is written.  A worker that holds nothing is at the top
    of its loop. *)
Inductive worker_state : Type :=
  | Locked (row : Z * event)
  | Started (row : Z * event).

Definition held_row (s : worker_state) : Z * event :=
  match s with
  | Locked row | Started row => row
  end.

(** The database and the workers of a deployment, by [WORKER_ID]. *)
Record cluster : Type := mkCluster {
  store : db;
  workers : gmap string worker_state
}.

(** What happens to the queue, one statement or transaction at a time.  A
    producer (or step 1 of some worker's loop) enqueues an event; worker [w]
    runs step 2 of its loop at [t_lock]; it writes the STARTED entry of step
    3; it runs the rest of step 3, finalising at [t_end]; or its process
    dies, which ends its connection and rolls back what it has not
    committed.  The activities of different workers come in any order. *)
Inductive activity : Type :=
  | Produce (now : Z) (ty payload : string) (st : status) (prio : Z)
      (run_at max_att created_by : option Z) (corr : option string)
  | LockNext (w : string) (t_lock : Z)
  | LogStarted (w : string)
  | Finish (w : string) (t_end : Z)
  | Crash (w : string).

(** The deployment after one activity.  An activity of a worker that is
    not at that point of its loop does nothing. *)
Definition run_activity (json_loads : string -> option json)
    (handle : agent -> db -> string -> Z -> json -> db * option string)
    (sch : schema) (cfg : config) (a : activity) (c : cluster) : cluster :=
  match a with
  | Produce now ty payload st prio run_at max_att created_by corr =>
      mkCluster
        (fst (enqueue_event sch cfg now (store c) ty payload st prio run_at
                max_att created_by corr))
        (workers c)
  | LockNext w t_lock =>
      match workers c !! w with
      | None =>
          match lock_next_event sch (worker_config cfg w) t_lock (store c) with
          | (d1, Some row) => mkCluster d1 (<[w := Locked row]> (workers c))
          | (d1, None) => mkCluster d1 (workers c)
          end
      | Some _ => c
      end
  | LogStarted w =>
      match workers c !! w with
      | Some (Locked row) =>
          mkCluster (step3_start (store c) row) (<[w := Started row]> (workers c))
      | _ => c
      end
  | Finish w t_end =>
      match workers c !! w with
      | Some (Started row) =>
          mkCluster
            (step3_finish json_loads handle sch (worker_config cfg w) t_end
               (store c) row)
            (delete w (workers c))
      | _ => c
      end
  | Crash w =>
      match workers c !! w with
      | Some (Locked _) => mkCluster (store c) (delete w (workers c))
      | Some (Started row) =>
          mkCluster (rollback_step3 (store c) (store c) (fst row))
            (delete w (workers c))
      | None => c
      end
  end.

(** The deployment after a sequence of activities. *)
Fixpoint run_queue (json_loads : string -> option json)
    (handle : agent -> db -> string -> Z -> json -> db * option string)
    (sch : schema) (cfg : config) (acts : list activity) (c : cluster)
    : cluster :=
  match acts with
  | [] => c
  | a :: acts' =>
      run_queue json_loads handle sch cfg acts'
        (run_activity json_loads handle sch cfg a c)
  end.

(** A database with every worker at the top of its loop. *)
Definition all_idle (d : db) : cluster := mkCluster d ∅.

(** No worker holds the event [eid]. *)
Definition nobody_holds (eid : Z) (ws : gmap string worker_state) : Prop :=
  forall w s, ws !! w = Some s -> fst (held_row s) <> eid.

(** One store operation, by a worker with whatever default maximum. *)
Definition any_store_step (d d' : db) : Prop := exists M, store_step M d d'.

(** One operation of the event store that is not a finalisation of the
    event [eid]: what the other workers and the producers can do while one
    worker processes [eid]. *)
Inductive foreign_step (eid : Z) : db -> db -> Prop :=
  | foreign_enqueue sch cfg now d ty p st prio run_at ma cb corr :
      foreign_step eid d
        (fst (enqueue_event sch cfg now d ty p st prio run_at ma cb corr))
  | foreign_lock sch cfg now d :
      foreign_step eid d (fst (lock_next_event sch cfg now d))
  | foreign_done now d eid' :
      eid' <> eid -> foreign_step eid d (mark_done now d eid')
  | foreign_failed cfg now d eid' err :
      eid' <> eid -> foreign_step eid d (mark_failed cfg now d eid' err)
  | foreign_log d a e st err :
      foreign_step eid d (log_run d a e st err).

(** The life of an event every attempt of which fails:
    [failing_attempts M eid f d d'] when [d'] is reached from [d] by
    operations that do not finalise [eid] (enqueues, claims by any worker,
    of [eid] too, finalisations of other events, log writes) and by [f]
    calls of [mark_failed] for [eid], each made while [eid] is PROCESSING and
    by a worker whose default maximum is [M]. *)
Inductive failing_attempts (M : Z) (eid : Z) : Z -> db -> db -> Prop :=
  | attempts_none d : failing_attempts M eid 0 d d
  | attempts_other f d d1 d2 :
      failing_attempts M eid f d d1 ->
      foreign_step eid d1 d2 ->
      failing_attempts M eid f d d2
  | attempts_failure f d d1 cfg now err r :
      failing_attempts M eid f d d1 ->
      MAX_EVENT_ATTEMPTS cfg = M ->
      agent_events d1 !! eid = Some r ->
      ev_status r = PROCESSING ->
      failing_attempts M eid (f + 1) d (mark_failed cfg now d1 eid err).

(** An event with [max_attempts = 2] and a handler ([CaseUpdated]),
    enqueued at time 0. *)
Definition queue_two_attempts : db :=
  fst (enqueue_event ensure_schema cfg_w1 0 empty_db
         "CaseUpdated" "{}" NEW 50 (Some 0) (Some 2) None None).

Definition row_two_attempts : event :=
  mkEvent "CaseUpdated" (Some "{}") NEW 50 0 2 0 None None None None None None 0 0.

(** An event with [max_attempts = 1], enqueued at time 0 and claimed by
    W1 at time 10. *)
Definition queue_last_attempt : db :=
  fst (lock_next_event ensure_schema cfg_w1 10
         (fst (enqueue_event ensure_schema cfg_w1 0 empty_db
                 "CaseUpdated" "{}" NEW 50 (Some 0) (Some 1) None None))).

Definition row_last_attempt : event :=
  mkEvent "CaseUpdated" (Some "{}") PROCESSING 50 1 1 0
    (Some "W1") (Some 10) None None None None 0 10.

(** A row whose stored [max_attempts] is 0, claimed once. *)
Definition queue_zero_max : db :=
  mkDb {[ 1 := mkEvent "CaseUpdated" (Some "{}") PROCESSING 50 1 0 0
                 (Some "W1") (Some 10) None None None None 0 10 ]} 2 [].

(** Two workers whose iterations overlap, with another event produced in
    between: W1 and W2 both lock before either has finished. *)
Definition overlapping_polls : list activity :=
  [LockNext "W1" 10; LockNext "W2" 11; LogStarted "W1"; LogStarted "W2";
   Produce 50 "PatientBirthday" "{}" PENDING 90 (Some 60) None None None;
   Finish "W1" 12; Finish "W2" 13;
   LockNext "W1" 100; LogStarted "W1"; Finish "W1" 101].

(** The handlers are called one after the other on [payload], in the
    order of the list, until one raises: the database they leave and the
    error of the one that raised, if any. *)
Inductive handlers_called
    (handle : agent -> db -> string -> Z -> json -> db * option string)
    (eid : Z) (ty : string) (payload : json)
    : list agent -> db -> db -> option string -> Prop :=
  | called_none d : handlers_called handle eid ty payload [] d d None
  | called_raises a l d d' e :
      handle a d ty eid payload = (d', Some e) ->
      handlers_called handle eid ty payload (a :: l) d d' (Some e)
  | called_returns a l d d1 d' res :
      handle a d ty eid payload = (d1, None) ->
      handlers_called handle eid ty payload l d1 d' res ->
      handlers_called handle eid ty payload (a :: l) d d' res.

(** Handlers for the examples that tell the empty document from any
    other: they raise on [{}] and return on everything else. *)
Definition handle_rejects_empty
    : agent -> db -> string -> Z -> json -> db * option string :=
  fun _ d _ _ payload =>
    match payload with
    | JObject [] => (d, Some "empty payload")
    | _ => (d, None)
    end.

(** A stand-in for [json.loads] for the examples that decodes the text of
    the empty object and the text of a one-element array, and rejects every
    other text. *)
Definition json_loads_two (s : string) : option json :=
  if String.eqb s "{}" then Some (JObject [])
  else if String.eqb s "[1]" then Some (JArray [JNumber "1"])
  else None.

(** * Further code of the queue and of its handlers *)

(** ** db.py: _has_column

    [_SCHEMA_CACHE] is a dictionary of dictionaries, table name to column
    name to answer; [info table col] is the answer of the query on
    [information_schema.columns] at the time of the call.  The function
    returns the cache as it leaves it and the answer. *)
Definition _has_column (info : string -> string -> bool)
    (cache : gmap string (gmap string bool)) (table col : string)
    : gmap string (gmap string bool) * bool :=
  let cache1 :=
    match cache !! table with
    | None => <[table := ∅]> cache
    | Some _ => cache
    end in
  let cols := default ∅ (cache1 !! table) in
  match cols !! col with
  | Some b => (cache1, b)
  | None =>
      let ok := info table col in
      (<[table := <[col := ok]> cols]> cache1, ok)
  end.

(** The table has the columns that the statements of [mark_done] and
    [mark_failed] name. *)
Definition finaliser_columns (sch : schema) : bool :=
  has_locked_by sch && has_locked_at sch && has_max_attempts sch
  && has_available_at sch.

(** No row of the queue is in status PROCESSING. *)
Definition none_processing (d : db) : Prop :=
  forall eid r, agent_events d !! eid = Some r -> ev_status r <> PROCESSING.

(** A queue with one event waiting (NEW) and no lease outstanding. *)
Definition queue_idle : db :=
  fst (enqueue_event ensure_schema cfg_w1 0 empty_db
         "CaseUpdated" "{}" NEW 50 (Some 0) None None None).

(** The columns fixed at creation agree, and attempts have not gone down. *)
Definition same_event (r r' : event) : Prop :=
  event_type r' = event_type r /\ payload_json r' = payload_json r
  /\ priority r' = priority r /\ max_attempts r' = max_attempts r
  /\ created_at r' = created_at r /\ correlation_id r' = correlation_id r
  /\ created_by_user_id r' = created_by_user_id r
  /\ attempts r <= attempts r'.

(** The handlers leave the queue's own tables alone: whatever a call
    writes, returning or raising, [agent_events] with its counter and
    [agent_runs] are as before (the agents at hand write to the clinic's
    tables and to [notifications]). *)
Definition handlers_keep_queue
    (handle : agent -> db -> string -> Z -> json -> db * option string) : Prop :=
  forall a d ty eid payload,
    agent_events (fst (handle a d ty eid payload)) = agent_events d
    /\ agent_runs (fst (handle a d ty eid payload)) = agent_runs d
    /\ next_id (fst (handle a d ty eid payload)) = next_id d.

(** A handler set for the examples in which the inventory agent raises
    and the others return. *)
Definition handle_inventory_raises
    : agent -> db -> string -> Z -> json -> db * option string :=
  fun a d _ _ _ =>
    match a with
    | INV => (d, Some "out of stock")
    | _ => (d, None)
    end.

(** ** Text helpers of the agents

    [str.strip] and [str.upper] are Python's; the agents' code is embedded
    over any two such functions.  [ascii_strip] and [ascii_upper_string] are
    what they do on text below code point 128 and serve in the examples. *)

(** [s.replace(a, b)] for one-character [a] and [b]. *)
Fixpoint replace_char (a b : ascii) (s : string) : string :=
  match s with
  | EmptyString => EmptyString
  | String c s' => String (if Ascii.eqb c a then b else c) (replace_char a b s')
  end.

Definition ascii_upper (c : ascii) : ascii :=
  let n := nat_of_ascii c in
  if ((97 <=? n)%nat && (n <=? 122)%nat)%bool then ascii_of_nat (n - 32) else c.

Fixpoint ascii_upper_string (s : string) : string :=
  match s with
  | EmptyString => EmptyString
  | String c s' => String (ascii_upper c) (ascii_upper_string s')
  end.

(** [str.isspace] below code point 128: the space, TAB to CR, and the
    separators FS to US. *)
Definition ascii_space (c : ascii) : bool :=
  let n := nat_of_ascii c in
  ((n =? 32)%nat || ((9 <=? n)%nat && (n <=? 13)%nat)
   || ((28 <=? n)%nat && (n <=? 31)%nat))%bool.

Fixpoint ascii_lstrip (s : string) : string :=
  match s with
  | EmptyString => EmptyString
  | String c s' => if ascii_space c then ascii_lstrip s' else s
  end.

Fixpoint ascii_rstrip (s : string) : string :=
  match s with
  | EmptyString => EmptyString
  | String c s' =>
      match ascii_rstrip s' with
      | EmptyString => if ascii_space c then EmptyString else String c EmptyString
      | t => String c t
      end
  end.

Definition ascii_strip (s : string) : string := ascii_rstrip (ascii_lstrip s).

(** [x or ""] for an optional string. *)
Definition or_empty (s : option string) : string :=
  match s with
  | Some x => x
  | None => ""
  end.

(** [x or fallback] for a string: the empty string is falsy. *)
Definition or_else (s fallback : string) : string :=
  if String.eqb s "" then fallback else s.

Section AgentText.

Variable py_strip : string -> string.
Variable py_upper : string -> string.

(** revenue_agent.py: [_norm(s)], the key under which a procedure type is
    looked up and billed. *)
Definition _norm (s : option string) : string :=
  or_else
    (substring 0 50
       (replace_char " " "_"
          (replace_char "-" "_" (py_upper (py_strip (or_empty s))))))
    "CONSULTATION".

(** [st in (a, b)] *)
Definition stage_in (st : string) (names : list string) : bool :=
  existsb (String.eqb st) names.

(** case_tracking_agent.py: [_risk_score(stage, next_review_date)];
    [today] is [_today()], dates are day numbers. *)
Definition _risk_score (today : Z) (stage : option string)
    (next_review_date : option Z) : Z :=
  let st := py_upper (py_strip (or_empty stage)) in
  let score :=
    if stage_in st ["BLOCKED"; "URGENT"] then 85
    else if stage_in st ["IN_TREATMENT"; "ACTIVE"] then 55
    else if stage_in st ["CLOSED"; "RESOLVED"] then 10
    else 30 in
  match next_review_date with
  | Some nrd =>
      if (nrd <=? today) && negb (stage_in st ["CLOSED"; "RESOLVED"])
      then Z.min 100 (score + 20)
      else score
  | None => score
  end.

End AgentText.

(** ** The agents' own dispatch *)

(** The entry points of revenue_agent.py that [RevenueAgent.handle]
    calls. *)
Inductive revenue_entry : Type :=
  | rev_on_appointment_created
  | rev_on_appointment_completed
  | rev_daily_revenue_insights
  | rev_ar_reminders_sweep.

(** [RevenueAgent.handle]: the functions called for an event type, in
    order. *)
Definition RevenueAgent_handle (ty : string) : list revenue_entry :=
  if String.eqb ty "AppointmentCreated" then [rev_on_appointment_created]
  else if String.eqb ty "AppointmentCompleted" then [rev_on_appointment_completed]
  else if String.eqb ty "RevenueDailyTick" || String.eqb ty "ARRankAndNotify"
  then [rev_daily_revenue_insights; rev_ar_reminders_sweep]
  else [].

(** The entry points that [CaseTrackingAgent.handle] calls. *)
Inductive case_entry : Type :=
  | case_on_case_updated
  | case_on_case_generate_summary
  | case_on_appointment_completed.

(** [CaseTrackingAgent.handle] *)
Definition CaseTrackingAgent_handle (ty : string) : list case_entry :=
  if String.eqb ty "CaseUpdated" then [case_on_case_updated]
  else if String.eqb ty "CaseGenerateSummary" then [case_on_case_generate_summary]
  else if String.eqb ty "AppointmentCompleted" then [case_on_appointment_completed]
  else [].

(** ** case_tracking_agent.py: the visit filter of
    _on_case_generate_summary_conn

    [py_int] is [int(vid)], [None] when it raises; [vlist] is the value of
    [payload.get("visitIds") or payload.get("visitDbIds")], [None] for
    Python's [None]. *)
Fixpoint positive_ids (py_int : json -> option Z) (items : list json) : list Z :=
  match items with
  | [] => []
  | vid :: rest =>
      match py_int vid with
      | Some n => if 0 <? n then n :: positive_ids py_int rest
                  else positive_ids py_int rest
      | None => positive_ids py_int rest
      end
  end.

Definition visit_ids_of (py_int : json -> option Z) (vlist : option json)
    : option (list Z) :=
  match vlist with
  | Some (JArray items) =>
      match positive_ids py_int items with
      | [] => None
      | ids => Some ids
      end
  | _ => None
  end.

(** The [IN (...)] clause and its parameters: [visit_filter_sql] and
    [params]. *)
Definition visit_filter (visit_ids : option (list Z)) : string * list Z :=
  match visit_ids with
  | Some (n :: ids) =>
      (" AND v.id IN (" ++ String.concat "," (List.map (fun _ => "%s") (n :: ids))
         ++ ")", n :: ids)
  | _ => ("", [])
  end.

(** The confidence heuristic on the number of visits read. *)
Definition summary_confidence (n_vis : nat) : Z :=
  if (3 <=? n_vis)%nat then 85
  else if (n_vis =? 2)%nat then 70
  else if (n_vis =? 1)%nat then 60
  else 50.

(** ** notifications.py: create_notification *)

(** One row of [notifications] as [create_notification] writes it (the
    columns of its [INSERT]), without the key [id]. *)
Record notification : Type := mkNotification {
  n_user_id : Z;
  n_title : string;
  n_message : string;
  n_type : string;
  n_channel : string;
  n_status : string;
  n_scheduled_at : option Z;
  n_related_table : option string;
  n_related_id : option Z;
  n_created_at : Z
}.

(** The [notifications] table with its [AUTO_INCREMENT] counter. *)
Record notification_table : Type := mkNotificationTable {
  notifications : gmap Z notification;
  notifications_next_id : Z
}.

(** The driver that [db.py] picked at import: [mysql.connector] when it
    can be imported, [pymysql] otherwise. *)
Inductive connector : Type := mysql_connector | pymysql.

(** The [notifications] table at hand: the one [ensure_schema] creates,
    which has neither a [related_table] nor a [related_id] column, or one
    with the columns that the docstring of [create_notification] lists. *)
Inductive notifications_shape : Type := as_ensure_schema | as_documented.

(** [create_notification(user_id=..., title=..., ...)]: the table after the
    call and the id returned, [None] when the call raises (after its
    [rollback]); [py_strip] is [str.strip].  A connection of
    [mysql.connector] has no [begin] method, so with that driver
    [conn.begin()] raises before any statement is sent; the [INSERT] names
    [related_table] and [related_id] and is rejected by a table without
    them. *)
Definition create_notification (drv : connector) (shape : notifications_shape)
    (py_strip : string -> string) (now : Z)
    (t : notification_table) (user_id : Z) (title message : option string)
    (notif_type : option string) (related_table : option string)
    (related_id : option Z) (scheduled_at : option Z) (channel : option string)
    : notification_table * option Z :=
  if user_id =? 0 then (t, Some 0)
  else
    let title' :=
      or_else (substring 0 200 (py_strip (or_empty title))) "Notification" in
    let message' :=
      or_else (substring 0 2000 (py_strip (or_empty message))) "" in
    let notif_type' :=
      substring 0 50 (py_strip (or_else (or_empty notif_type) "INFO")) in
    let channel' :=
      substring 0 50 (py_strip (or_else (or_empty channel) "IN_APP")) in
    match drv, shape with
    | mysql_connector, _ => (t, None)
    | pymysql, as_ensure_schema => (t, None)
    | pymysql, as_documented =>
        let row := {|
          n_user_id := user_id;
          n_title := title';
          n_message := message';
          n_type := notif_type';
          n_channel := channel';
          n_status := match scheduled_at with Some _ => "PENDING" | None => "NEW" end;
          n_scheduled_at := scheduled_at;
          n_related_table := related_table;
          n_related_id := related_id;
          n_created_at := now
        |} in
        let nid := notifications_next_id t in
        (mkNotificationTable (<[nid := row]> (notifications t)) (nid + 1),
         Some nid)
    end.

(** The counter has started at 1 and every id in the table is below it. *)
Definition notification_ids_ok (t : notification_table) : Prop :=
  0 < notifications_next_id t
  /\ forall nid, is_Some (notifications t !! nid) -> nid < notifications_next_id t.

Definition no_notifications : notification_table := mkNotificationTable ∅ 1.

(** * Properties *)

(** ** Selection of the candidate row *)

Lemma before_at_or_before x y : before x y = true -> at_or_before x y.
Proof.
  unfold before, at_or_before. intros H.
  apply orb_true_iff in H as [H | H]; [left; lia |].
  apply andb_true_iff in H as [H1 H2]. right. lia.
Qed.

Lemma not_before_at_or_before x y : before x y = false -> at_or_before y x.
Proof.
  unfold before, at_or_before. intros H.
  apply orb_false_iff in H as [H1 H2].
  apply andb_false_iff in H2 as [H2 | H2]; lia.
Qed.

Lemma at_or_before_refl x : at_or_before x x.
Proof. unfold at_or_before. right. lia. Qed.

Lemma at_or_before_trans x y z :
  at_or_before x y -> at_or_before y z -> at_or_before x z.
Proof. unfold at_or_before. lia. Qed.

Lemma first_in_order_none l : first_in_order l = None -> l = [].
Proof.
  destruct l as [| x l]; [done |]. simpl.
  destruct (first_in_order l) as [y |]; [| done].
  by destruct (before x y).
Qed.

Lemma first_in_order_some l x :
  first_in_order l = Some x ->
  In x l /\ forall y, In y l -> at_or_before x y.
Proof.
  revert x. induction l as [| a l IH]; intros x; simpl; [done |].
  destruct (first_in_order l) as [y |] eqn:Hl.
  - destruct (IH y eq_refl) as [Hin Hmin].
    destruct (before a y) eqn:Hb; intros [= <-].
    + split; [by left |]. intros z [<- | Hz]; [apply at_or_before_refl |].
      eapply at_or_before_trans; [by apply before_at_or_before | by apply Hmin].
    + split; [by right |]. intros z [<- | Hz]; [| by apply Hmin].
      by apply not_before_at_or_before.
  - intros [= <-]. apply first_in_order_none in Hl as ->.
    split; [by left |]. intros z [<- | []]. apply at_or_before_refl.
Qed.

Lemma select_candidate_none sch cfg now (m : gmap Z event) :
  select_candidate sch cfg now m = None ->
  forall eid r, m !! eid = Some r -> eligible sch cfg now r = false.
Proof.
  unfold select_candidate. intros H eid r Hr.
  apply first_in_order_none in H.
  destruct (eligible sch cfg now r) eqn:He; [| done].
  assert (Hin : In (eid, r)
    (List.filter (fun x => eligible sch cfg now (snd x)) (map_to_list m))).
  { apply filter_In. split; [| done].
    apply list_elem_of_In. by apply elem_of_map_to_list. }
  rewrite H in Hin. destruct Hin.
Qed.

Lemma select_candidate_some sch cfg now (m : gmap Z event) eid r :
  select_candidate sch cfg now m = Some (eid, r) ->
  m !! eid = Some r /\ eligible sch cfg now r = true /\
  forall eid' r', m !! eid' = Some r' -> eligible sch cfg now r' = true ->
    at_or_before (eid, r) (eid', r').
Proof.
  unfold select_candidate. intros H.
  apply first_in_order_some in H as [Hin Hmin].
  apply filter_In in Hin as [Hin He]. simpl in He.
  apply list_elem_of_In, elem_of_map_to_list in Hin.
  split; [done |]. split; [done |].
  intros eid' r' Hr' He'. apply Hmin. apply filter_In. split; [| done].
  apply list_elem_of_In. by apply elem_of_map_to_list.
Qed.

(** What [lock_next_event] does, case by case. *)
Lemma lock_next_event_cases sch cfg now d :
  (lock_next_event sch cfg now d = (d, None) /\
   forall eid r, agent_events d !! eid = Some r -> eligible sch cfg now r = false)
  \/
  (exists eid r,
     agent_events d !! eid = Some r /\ eligible sch cfg now r = true /\
     (forall eid' r', agent_events d !! eid' = Some r' ->
        eligible sch cfg now r' = true -> at_or_before (eid, r) (eid', r')) /\
     lock_next_event sch cfg now d =
       (set_events d (<[eid := claim_update sch cfg now r]> (agent_events d)),
        Some (eid, claim_update sch cfg now r))).
Proof.
  unfold lock_next_event.
  destruct (select_candidate sch cfg now (agent_events d)) as [[eid r] |] eqn:Hs.
  - right. apply select_candidate_some in Hs as (Hr & He & Hmin).
    exists eid, r. repeat split; try done.
    rewrite lookup_alter_eq, Hr. simpl.
    f_equal. f_equal. apply map_eq. intros j.
    destruct (decide (eid = j)) as [<- | Hne].
    + by rewrite lookup_alter_eq, lookup_insert_eq, Hr.
    + by rewrite lookup_alter_ne, lookup_insert_ne.
  - left. split; [done |]. by apply select_candidate_none.
Qed.

(** ** C2: what lock_next_event returns and changes *)

Lemma eligible_claimable_by_spec cfg now r :
  eligible ensure_schema cfg now r = true <-> claimable_by_spec cfg now r.
Proof.
  unfold eligible, claimable_by_spec, lease_free, status_claimable. simpl.
  rewrite !andb_true_iff, Z.leb_le. split.
  - intros [[Hs Ha] Hl]. split; [| split; [done |]].
    + destruct (ev_status r); try discriminate; auto.
    + destruct (locked_at r) as [t |]; [| by left].
      right. exists t. split; [done | lia].
  - intros (Hs & Ha & Hl). split; [split; [| done] |].
    + by destruct Hs as [-> | ->].
    + destruct Hl as [-> | (t & -> & Ht)]; [done | lia].
Qed.

(** C2.  On the schema of [ensure_schema], [lock_next_event] either finds
    no row that is claimable (status NEW or PENDING, [available_at <= now],
    lease absent or older than the TTL), returns [None] and leaves the
    database as it is; or it picks a claimable row, sets its status to
    PROCESSING, adds exactly 1 to [attempts], sets [locked_by] to this
    worker and [locked_at] to [now], keeps the row's other columns (but
    [updated_at]) and all other rows, and returns the row as updated. *)
Theorem lock_next_event_claims_or_none (cfg : config) (now : Z) (d : db) :
  ((forall eid r, agent_events d !! eid = Some r -> ~ claimable_by_spec cfg now r)
   /\ lock_next_event ensure_schema cfg now d = (d, None))
  \/
  (exists eid r d' r',
     agent_events d !! eid = Some r /\ claimable_by_spec cfg now r /\
     lock_next_event ensure_schema cfg now d = (d', Some (eid, r')) /\
     agent_events d' !! eid = Some r' /\
     (forall eid', eid' <> eid -> agent_events d' !! eid' = agent_events d !! eid') /\
     next_id d' = next_id d /\ agent_runs d' = agent_runs d /\
     ev_status r' = PROCESSING /\
     attempts r' = attempts r + 1 /\
     locked_by r' = Some (WORKER_ID cfg) /\
     locked_at r' = Some now /\
     updated_at r' = now /\
     event_type r' = event_type r /\ payload_json r' = payload_json r /\
     priority r' = priority r /\ max_attempts r' = max_attempts r /\
     available_at r' = available_at r /\ last_error r' = last_error r /\
     done_at r' = done_at r /\ correlation_id r' = correlation_id r /\
     created_by_user_id r' = created_by_user_id r /\
     created_at r' = created_at r).
Proof.
  destruct (lock_next_event_cases ensure_schema cfg now d)
    as [[Heq Hnone] | (eid & r & Hr & He & _ & Heq)].
  - left. split; [| done]. intros eid r Hr Hc.
    apply eligible_claimable_by_spec in Hc. by rewrite (Hnone eid r Hr) in Hc.
  - right. exists eid, r. eexists. eexists.
    split; [done |]. split; [by apply eligible_claimable_by_spec |].
    split; [exact Heq |]. simpl.
    split; [by rewrite lookup_insert_eq |].
    split; [intros eid' Hne; by rewrite lookup_insert_ne |].
    repeat split.
Qed.

(** ** C5: priority order *)

(** C5.  The row that [lock_next_event] returns was eligible and has,
    among all eligible rows, the smallest priority value and, among those
    of that priority, the smallest id; and with A(priority 10),
    B(priority 10), C(priority 5) enqueued in the order A, B, C and all
    eligible, successive calls return C, then A, then B (and then
    nothing). *)
Theorem lock_next_event_priority_order :
  (forall sch cfg now d d' eid r',
     lock_next_event sch cfg now d = (d', Some (eid, r')) ->
     exists r, agent_events d !! eid = Some r /\
       eligible sch cfg now r = true /\ priority r' = priority r /\
       forall eid2 r2, agent_events d !! eid2 = Some r2 ->
         eligible sch cfg now r2 = true ->
         priority r < priority r2 \/ (priority r = priority r2 /\ eid <= eid2))
  /\ claimed_types 4 cfg_w1 5 queue_ABC = ["C"; "A"; "B"].
Proof.
  split; [| by vm_compute].
  intros sch cfg now d d' eid r' H.
  destruct (lock_next_event_cases sch cfg now d)
    as [[Heq _] | (eid0 & r & Hr & He & Hmin & Heq)]; [congruence |].
  rewrite Heq in H. injection H as _ -> <-.
  exists r. split; [done |]. split; [done |].
  split; [unfold claim_update; by repeat case_match |].
  intros eid2 r2 Hr2 He2. exact (Hmin eid2 r2 Hr2 He2).
Qed.

Lemma lock_next_event_priority_order_witness :
  lock_next_event ensure_schema cfg_w1 5 queue_ABC
    = (set_events queue_ABC
         (<[3 := claim_update ensure_schema cfg_w1 5 row_C]> (agent_events queue_ABC)),
       Some (3, claim_update ensure_schema cfg_w1 5 row_C))
  /\ exists r, agent_events queue_ABC !! 3 = Some r /\ priority r = 5
       /\ forall eid2 r2, agent_events queue_ABC !! eid2 = Some r2 ->
            eligible ensure_schema cfg_w1 5 r2 = true ->
            priority r < priority r2 \/ (priority r = priority r2 /\ 3 <= eid2).
Proof.
  assert (Hlock : lock_next_event ensure_schema cfg_w1 5 queue_ABC
    = (set_events queue_ABC
         (<[3 := claim_update ensure_schema cfg_w1 5 row_C]> (agent_events queue_ABC)),
       Some (3, claim_update ensure_schema cfg_w1 5 row_C))) by (by vm_compute).
  split; [exact Hlock |].
  destruct (proj1 lock_next_event_priority_order ensure_schema cfg_w1 5 queue_ABC
              _ 3 _ Hlock) as (r & Hr & _ & Hp & Hmin).
  exists r. split; [done |]. split; [by rewrite <- Hp | exact Hmin].
Defined.

(** ** C1: a stale lease on a PROCESSING row *)

(** A row whose status is outside [('NEW','PENDING')] is never the row
    [lock_next_event] returns, whatever the clock, the TTL and the lease
    columns say, and the call leaves it as it is. *)
Lemma unclaimable_row_untouched sch cfg now d eid r :
  agent_events d !! eid = Some r ->
  status_claimable (ev_status r) = false ->
  (forall row, snd (lock_next_event sch cfg now d) <> Some (eid, row))
  /\ agent_events (fst (lock_next_event sch cfg now d)) !! eid = Some r.
Proof.
  intros Hr Hs.
  assert (Hne : eligible sch cfg now r = false).
  { unfold eligible. by rewrite Hs. }
  destruct (lock_next_event_cases sch cfg now d)
    as [[Heq _] | (eid0 & r0 & Hr0 & He0 & _ & Heq)]; rewrite Heq; simpl.
  - split; [done | exact Hr].
  - assert (eid0 <> eid) by (intros ->; congruence).
    split; [intros row [= ? _]; congruence |].
    by rewrite lookup_insert_ne.
Qed.

(** C1, as the code has it.  W1 claims the event at time 10 with a lease
    TTL of 300 seconds and leaves it PROCESSING.  At time 1000, long after
    the lease has run out, W2's [lock_next_event] returns nothing and
    changes nothing: the row still belongs to W1 with [attempts = 1].  The
    [WHERE] clause admits NEW and PENDING rows only, so the test on
    [locked_at] never sees a PROCESSING row. *)
Theorem stale_processing_lease_not_reclaimed :
  lock_next_event ensure_schema cfg_w1 10 queue_one
    = (queue_one_leased, Some (1, leased_row))
  /\ agent_events queue_one_leased !! 1 = Some leased_row
  /\ lease_free cfg_w2 1000 leased_row = true
  /\ lock_next_event ensure_schema cfg_w2 1000 queue_one_leased
       = (queue_one_leased, None)
  /\ forall now, snd (lock_next_event ensure_schema cfg_w2 now queue_one_leased) = None.
Proof.
  split; [by vm_compute |]. split; [by vm_compute |].
  split; [by vm_compute |]. split; [by vm_compute |].
  intros now.
  destruct (lock_next_event_cases ensure_schema cfg_w2 now queue_one_leased)
    as [[Heq _] | (eid & r & Hr & He & _ & _)]; [by rewrite Heq |].
  exfalso. destruct (decide (eid = 1)) as [-> | Hne].
  - assert (Hl : agent_events queue_one_leased !! 1 = Some leased_row)
      by (by vm_compute).
    rewrite Hl in Hr. injection Hr as <-. discriminate He.
  - assert (agent_events queue_one_leased !! eid = None) as Hnone; [| congruence].
    unfold queue_one_leased, queue_one, lock_next_event. simpl.
    vm_compute select_candidate. simpl.
    rewrite lookup_alter_ne by done. unfold enqueue_event. simpl.
    rewrite lookup_insert_ne by done. apply lookup_empty.
Qed.

(** ** C4: the retry delay *)

Lemma pow2_capped n : 0 <= n -> 1 <= 2 ^ (Z.min n 8) <= 256.
Proof.
  intros Hn.
  assert (H0 : 2 ^ 0 <= 2 ^ (Z.min n 8)) by (apply Z.pow_le_mono_r; lia).
  assert (H8 : 2 ^ (Z.min n 8) <= 2 ^ 8) by (apply Z.pow_le_mono_r; lia).
  change (2 ^ 0) with 1 in H0. change (2 ^ 8) with 256 in H8. lia.
Qed.

Lemma backoff_refines_spec n : backoff n = backoff_by_spec n.
Proof.
  unfold backoff, backoff_by_spec, clamp.
  destruct (Z.ltb_spec (2 ^ Z.min n 8 * 5) 10);
    destruct (Z.ltb_spec 600 (2 ^ Z.min n 8 * 5)); lia.
Qed.

Example backoff_table :
  List.map backoff [0; 1; 2; 3; 4; 5; 6; 7; 8; 9; 100]
    = [10; 10; 20; 40; 80; 160; 320; 600; 600; 600; 600].
Proof. reflexivity. Qed.

Lemma backoff_bounds n : 10 <= backoff n <= 600.
Proof. unfold backoff. lia. Qed.

Lemma backoff_mono n m : 0 <= n -> n <= m -> backoff n <= backoff m.
Proof.
  intros Hn Hnm. unfold backoff.
  assert (2 ^ (Z.min n 8) <= 2 ^ (Z.min m 8)) by (apply Z.pow_le_mono_r; lia).
  lia.
Qed.

Lemma mark_failed_lookup cfg now d eid err r :
  agent_events d !! eid = Some r ->
  agent_events (mark_failed cfg now d eid err) !! eid =
    Some (if exhausted cfg (Some r) then failed_update now err r
          else retry_update now err (backoff (attempts r)) r).
Proof.
  intros Hr. unfold mark_failed. rewrite Hr.
  destruct (exhausted cfg (Some r)); simpl; by rewrite lookup_alter_eq, Hr.
Qed.

Lemma mark_failed_lookup_ne cfg now d eid err eid' :
  eid' <> eid ->
  agent_events (mark_failed cfg now d eid err) !! eid' = agent_events d !! eid'.
Proof.
  intros Hne. unfold mark_failed.
  destruct (exhausted cfg (agent_events d !! eid)); simpl;
    by rewrite lookup_alter_ne.
Qed.

(** C4.  For every attempt count [n >= 0] the delay [backoff n] that
    [mark_failed] computes is [clamp(2^min(n,8) * 5, 10, 600)], lies
    between 10 and 600 seconds, and does not decrease when [n] grows; a
    retried row becomes available again exactly that many seconds after
    [now], and since the next claim of that row raises [attempts], the
    delay of its next failure is at least as long. *)
Theorem retry_delay_clamped_monotone :
  (forall n, 0 <= n ->
     backoff n = clamp (2 ^ (Z.min n 8) * 5) 10 600
     /\ 10 <= backoff n <= 600
     /\ forall m, n <= m -> backoff n <= backoff m)
  /\
  (forall cfg now d eid err r,
     agent_events d !! eid = Some r -> 0 <= attempts r ->
     exhausted cfg (Some r) = false ->
     exists r1,
       agent_events (mark_failed cfg now d eid err) !! eid = Some r1
       /\ available_at r1 = now + clamp (2 ^ (Z.min (attempts r) 8) * 5) 10 600
       /\ forall sch cfg' t,
            attempts (claim_update sch cfg' t r1) = attempts r + 1
            /\ backoff (attempts r) <= backoff (attempts (claim_update sch cfg' t r1))).
Proof.
  split.
  - intros n Hn. split; [apply backoff_refines_spec |].
    split; [apply backoff_bounds |]. intros m Hm. by apply backoff_mono.
  - intros cfg now d eid err r Hr Ha Hex.
    exists (retry_update now err (backoff (attempts r)) r).
    split; [by rewrite (mark_failed_lookup _ _ _ _ _ _ Hr), Hex |].
    split; [simpl; by rewrite backoff_refines_spec |].
    intros sch cfg' t.
    assert (Hatt : attempts (claim_update sch cfg' t
                     (retry_update now err (backoff (attempts r)) r))
                   = attempts r + 1).
    { unfold claim_update. by repeat case_match. }
    split; [done |]. rewrite Hatt. apply backoff_mono; lia.
Qed.

Lemma retry_delay_clamped_monotone_witness :
  (backoff 3 = 40 /\ backoff 3 <= backoff 7)
  /\ available_at <$> (agent_events
        (mark_failed cfg_w1 20 queue_one_leased 1 "boom") !! 1) = Some 30.
Proof.
  destruct retry_delay_clamped_monotone as [Hfun Hrow].
  split.
  - destruct (Hfun 3 ltac:(lia)) as (Heq & _ & Hmono).
    split; [rewrite Heq; reflexivity | apply Hmono; lia].
  - destruct (Hrow cfg_w1 20 queue_one_leased 1 "boom" leased_row)
      as (r1 & Hr1 & Hav & _);
      [reflexivity | simpl; lia | reflexivity |].
    rewrite Hr1. simpl. rewrite Hav. reflexivity.
Defined.

(** ** C7: mark_done, once and twice *)

Lemma set_events_same d : set_events d (agent_events d) = d.
Proof. by destruct d. Qed.

Lemma mark_done_lookup now d eid :
  agent_events (mark_done now d eid) !! eid
    = done_update now <$> agent_events d !! eid.
Proof. unfold mark_done. simpl. apply lookup_alter_eq. Qed.

Lemma mark_done_lookup_ne now d eid eid' :
  eid' <> eid ->
  agent_events (mark_done now d eid) !! eid' = agent_events d !! eid'.
Proof. intros Hne. unfold mark_done. simpl. by apply lookup_alter_ne. Qed.

Lemma mark_done_twice now1 now2 d eid :
  mark_done now2 (mark_done now1 d eid) eid = mark_done now2 d eid.
Proof.
  unfold mark_done, set_events. simpl. f_equal.
  apply map_eq. intros j. destruct (decide (j = eid)) as [-> | Hne].
  - rewrite !lookup_alter_eq. by destruct (agent_events d !! eid).
  - by rewrite !lookup_alter_ne.
Qed.

(** The claim as stated fails: an event completed at time 100 and
    completed again at time 200 has its [done_at] (and [updated_at]) moved
    to 200 by the second call. *)
Lemma mark_done_second_call_changes_row :
  ~ (forall now1 now2 d eid,
       mark_done now2 (mark_done now1 d eid) eid = mark_done now1 d eid).
Proof.
  intros H. specialize (H 100 200 queue_one_leased 1).
  apply (f_equal (fun x => done_at <$> agent_events x !! 1)) in H.
  vm_compute in H. discriminate H.
Qed.

(** C7, amended.  [mark_done] sets the row's status to DONE, [done_at]
    (and [updated_at]) to [now], clears [locked_by] and [locked_at] and
    keeps every other column and every other row.  A second call at time
    [now2] gives the database that a single call at [now2] gives: of the
    row's columns only [done_at] and [updated_at] can change, to [now2],
    and when both calls see the same time nothing changes at all. *)
Theorem mark_done_sets_and_repeats (now1 now2 : Z) (d : db) (eid : Z) (r : event) :
  agent_events d !! eid = Some r ->
  let d1 := mark_done now1 d eid in
  let d2 := mark_done now2 d1 eid in
  (exists r1, agent_events d1 !! eid = Some r1
     /\ ev_status r1 = DONE /\ done_at r1 = Some now1
     /\ locked_by r1 = None /\ locked_at r1 = None /\ updated_at r1 = now1
     /\ event_type r1 = event_type r /\ payload_json r1 = payload_json r
     /\ priority r1 = priority r /\ attempts r1 = attempts r
     /\ max_attempts r1 = max_attempts r /\ available_at r1 = available_at r
     /\ last_error r1 = last_error r /\ correlation_id r1 = correlation_id r
     /\ created_by_user_id r1 = created_by_user_id r
     /\ created_at r1 = created_at r
     /\ agent_events d2 !! eid
          = Some (mkEvent (event_type r1) (payload_json r1) (ev_status r1)
                    (priority r1) (attempts r1) (max_attempts r1)
                    (available_at r1) (locked_by r1) (locked_at r1)
                    (last_error r1) (Some now2) (correlation_id r1)
                    (created_by_user_id r1) (created_at r1) now2))
  /\ (forall eid', eid' <> eid -> agent_events d1 !! eid' = agent_events d !! eid')
  /\ d2 = mark_done now2 d eid
  /\ (now2 = now1 -> d2 = d1).
Proof.
  intros Hr d1 d2. subst d1 d2. split; [| split; [| split]].
  - exists (done_update now1 r).
    split; [by rewrite mark_done_lookup, Hr |].
    rewrite mark_done_twice, mark_done_lookup, Hr. by repeat split.
  - intros eid' Hne. by apply mark_done_lookup_ne.
  - apply mark_done_twice.
  - intros ->. apply mark_done_twice.
Qed.

Lemma mark_done_sets_and_repeats_witness :
  agent_events queue_one_leased !! 1 = Some leased_row
  /\ mark_done 200 (mark_done 100 queue_one_leased 1) 1
       = mark_done 200 queue_one_leased 1
  /\ mark_done 100 (mark_done 100 queue_one_leased 1) 1
       = mark_done 100 queue_one_leased 1.
Proof.
  split; [reflexivity |].
  pose proof (mark_done_sets_and_repeats 100 200 queue_one_leased 1 leased_row
                eq_refl) as (_ & _ & H2 & _).
  pose proof (mark_done_sets_and_repeats 100 100 queue_one_leased 1 leased_row
                eq_refl) as (_ & _ & _ & H3).
  split; [exact H2 | exact (H3 eq_refl)].
Defined.

(** ** C10: mark_failed on an id without a row *)

Lemma alter_missing (f : event -> event) (m : gmap Z event) eid :
  m !! eid = None -> alter f eid m = m.
Proof.
  intros H. apply map_eq. intros j. destruct (decide (j = eid)) as [-> | Hne].
  - by rewrite lookup_alter_eq, H.
  - by rewrite lookup_alter_ne.
Qed.

(** C10.  When no row has the id, [mark_failed] reads [attempts = 0] and
    the default [MAX_EVENT_ATTEMPTS]; with a positive default the branch
    taken is the retry [UPDATE] (with the 10 second delay), which matches no
    row, and the database is returned as it was.  The function is total, so
    the call returns. *)
Theorem mark_failed_missing_row (cfg : config) (now : Z) (d : db) (eid : Z)
    (err : string) :
  agent_events d !! eid = None ->
  0 < MAX_EVENT_ATTEMPTS cfg ->
  read_attempts (agent_events d !! eid) = 0
  /\ read_max_attempts cfg (agent_events d !! eid) = MAX_EVENT_ATTEMPTS cfg
  /\ exhausted cfg (agent_events d !! eid) = false
  /\ mark_failed cfg now d eid err
       = set_events d (alter (retry_update now err 10) eid (agent_events d))
  /\ mark_failed cfg now d eid err = d.
Proof.
  intros Hnone Hpos. unfold mark_failed, exhausted. rewrite Hnone. simpl.
  destruct (Z.leb_spec (MAX_EVENT_ATTEMPTS cfg) 0) as [? | _]; [lia |].
  repeat split; try done.
  rewrite (alter_missing _ _ _ Hnone). apply set_events_same.
Qed.

Lemma mark_failed_missing_row_witness :
  agent_events queue_one_leased !! 7 = None
  /\ mark_failed cfg_w1 20 queue_one_leased 7 "boom" = queue_one_leased.
Proof.
  split; [reflexivity |].
  apply (mark_failed_missing_row cfg_w1 20 queue_one_leased 7 "boom");
    [reflexivity | reflexivity].
Defined.

(** ** C6: the idempotency lock *)

Lemma claim_held cfg now (locks : gmap string lock) key ttl l :
  locks !! key = Some l -> now < expires_at l ->
  claim cfg now locks key ttl = (locks, false).
Proof.
  intros Hl Hlt. unfold claim. rewrite Hl.
  destruct (Z.ltb_spec now (expires_at l)); [done | lia].
Qed.

Lemma claim_free cfg now (locks : gmap string lock) key ttl :
  key_free now locks key ->
  claim cfg now locks key ttl
    = (<[key := mkLock (WORKER_ID cfg) (now + ttl) now]> locks, true).
Proof.
  unfold key_free, claim. destruct (locks !! key) as [l |]; [| done].
  intros Hle. destruct (Z.ltb_spec now (expires_at l)); [lia | done].
Qed.

Lemma claim_true_arms cfg now (locks : gmap string lock) key ttl locks' :
  claim cfg now locks key ttl = (locks', true) ->
  locks' !! key = Some (mkLock (WORKER_ID cfg) (now + ttl) now).
Proof.
  unfold claim. destruct (locks !! key) as [l |].
  - destruct (now <? expires_at l); intros [= <-]. apply lookup_insert_eq.
  - intros [= <-]. apply lookup_insert_eq.
Qed.

(** C6.  [claim] returns false, changing nothing, when the key has a lock
    row with [expires_at > now]; otherwise it returns true and the row for
    the key now carries the caller as [locked_by] and [expires_at = now +
    ttl].  Hence, when a claim at [t1] succeeds, a second claim of the same
    key at [t2] inside the window [t1 <= t2 < t1 + ttl] fails, whoever makes
    it, and a further claim at [t3 >= t1 + ttl] succeeds; and no two claims
    of one key inside one window both succeed. *)
Theorem claim_dedup (c1 c2 c3 : config) (locks : gmap string lock)
    (key : string) (ttl t1 t2 t3 : Z) :
  t1 <= t2 < t1 + ttl -> t1 + ttl <= t3 ->
  (forall l, locks !! key = Some l -> t1 < expires_at l ->
     claim c1 t1 locks key ttl = (locks, false))
  /\ (key_free t1 locks key ->
      let locks1 := <[key := mkLock (WORKER_ID c1) (t1 + ttl) t1]> locks in
      claim c1 t1 locks key ttl = (locks1, true)
      /\ claim c2 t2 locks1 key ttl = (locks1, false)
      /\ claim c3 t3 locks1 key ttl
           = (<[key := mkLock (WORKER_ID c3) (t3 + ttl) t3]> locks1, true))
  /\ ~ (snd (claim c1 t1 locks key ttl) = true
        /\ snd (claim c2 t2 (fst (claim c1 t1 locks key ttl)) key ttl) = true).
Proof.
  intros Hwin Hlater. split; [| split].
  - intros l Hl Hlt. by apply (claim_held c1 t1 locks key ttl l).
  - intros Hfree locks1. subst locks1.
    split; [by apply claim_free |]. split.
    + apply (claim_held c2 t2 _ key ttl (mkLock (WORKER_ID c1) (t1 + ttl) t1));
        [apply lookup_insert_eq | simpl; lia].
    + apply claim_free. unfold key_free. rewrite lookup_insert_eq. simpl. lia.
  - intros [H1 H2].
    destruct (claim c1 t1 locks key ttl) as [locks1 b] eqn:Hc. simpl in *.
    subst b. apply claim_true_arms in Hc.
    rewrite (claim_held c2 t2 locks1 key ttl _ Hc) in H2; [done | simpl; lia].
Qed.

Lemma claim_dedup_witness :
  snd (claim cfg_w1 0 ∅ "cron:x" 60) = true
  /\ snd (claim cfg_w2 59 (fst (claim cfg_w1 0 ∅ "cron:x" 60)) "cron:x" 60) = false
  /\ snd (claim cfg_w2 60 (fst (claim cfg_w1 0 ∅ "cron:x" 60)) "cron:x" 60) = true.
Proof.
  destruct (claim_dedup cfg_w1 cfg_w2 cfg_w2 ∅ "cron:x" 60 0 59 60)
    as (_ & H & _); [lia | lia |].
  destruct H as (H1 & H2 & H3); [exact I |].
  rewrite H1. cbn [fst snd]. rewrite H2, H3. by repeat split.
Defined.

(** ** C9: payload parsing *)

Section PayloadParsing.

Variable json_loads : string -> option json.
Variable handle : agent -> db -> string -> Z -> json -> db * option string.

(** [json.loads("{}")] is the empty dictionary. *)
Hypothesis json_loads_empty_object : json_loads "{}" = Some (JObject []).

Lemma parse_payload_unusable r :
  payload_unusable json_loads r -> _parse_payload json_loads r = JObject [].
Proof.
  unfold _parse_payload, payload_text.
  intros [-> | [-> | (s & -> & Hs)]]; simpl.
  - by rewrite json_loads_empty_object.
  - by rewrite json_loads_empty_object.
  - destruct (String.eqb s ""); [by rewrite json_loads_empty_object |].
    by rewrite Hs.
Qed.

(** [call_handlers] calls the handlers as [handlers_called] says. *)
Lemma call_handlers_called l d eid ty payload :
  handlers_called handle eid ty payload l d
    (fst (call_handlers handle l d eid ty payload))
    (snd (call_handlers handle l d eid ty payload)).
Proof.
  revert d. induction l as [| a l IH]; intros d; simpl; [constructor |].
  destruct (handle a d ty eid payload) as [d1 [e |]] eqn:Ha; simpl.
  - by apply called_raises.
  - apply (called_returns _ _ _ _ a l d d1); [done | apply IH].
Qed.

(** C9.  [_parse_payload] returns a document for every row: the decoded
    text when [json.loads] accepts it, [{}] when it raises.  For a row whose
    [payload_json] is NULL, empty or not valid JSON the result is [{}], and
    the event is dispatched all the same: the handlers that [_dispatch]
    routes the event type to are called one after the other on the empty
    document, until one raises, and the event is finalised on their outcome,
    DONE when all return and failed with the error of the handler that
    raised otherwise.  So if the first of them raises on [{}], the event is
    reported as failed with that error. *)
Theorem parse_payload_never_raises (cfg : config) (now : Z) (d : db)
    (eid : Z) (r : event) :
  (json_loads (payload_text r) = Some (_parse_payload json_loads r)
   \/ (json_loads (payload_text r) = None
       /\ _parse_payload json_loads r = JObject []))
  /\ (payload_unusable json_loads r ->
      _parse_payload json_loads r = JObject []
      /\ (exists d2 res,
            handlers_called handle eid (event_type r) (JObject [])
              (route (event_type r))
              (log_run d "worker" (Some eid) "STARTED" None) d2 res
            /\ process_event json_loads handle cfg now d (eid, r)
               = match res with
                 | None =>
                     log_run (mark_done now d2 eid) "worker" (Some eid) "DONE" None
                 | Some err =>
                     log_run (mark_failed cfg now d2 eid err) "worker" (Some eid)
                       "FAILED" (Some err)
                 end)
      /\ (forall a l d2 e,
            route (event_type r) = a :: l ->
            handle a (log_run d "worker" (Some eid) "STARTED" None)
              (event_type r) eid (JObject []) = (d2, Some e) ->
            process_event json_loads handle cfg now d (eid, r)
            = log_run (mark_failed cfg now d2 eid e) "worker" (Some eid)
                "FAILED" (Some e))).
Proof.
  split.
  - unfold _parse_payload.
    destruct (json_loads (payload_text r)); [by left | by right].
  - intros Hbad. pose proof (parse_payload_unusable r Hbad) as Hempty.
    split; [done |]. split.
    + pose proof (call_handlers_called (route (event_type r))
                    (log_run d "worker" (Some eid) "STARTED" None) eid
                    (event_type r) (JObject [])) as Hcalled.
      unfold process_event, _dispatch. cbn [fst snd]. rewrite Hempty.
      destruct (call_handlers handle (route (event_type r))
                  (log_run d "worker" (Some eid) "STARTED" None) eid
                  (event_type r) (JObject [])) as [d2 res].
      exists d2, res. split; [exact Hcalled |]. by destruct res.
    + intros a l d2 e Hroute Ha.
      unfold process_event, _dispatch. cbn [fst snd].
      rewrite Hempty, Hroute. simpl. by rewrite Ha.
Qed.

End PayloadParsing.

Lemma parse_payload_never_raises_witness :
  _parse_payload json_loads_two (row_with_payload "CaseUpdated" None) = JObject []
  /\ process_event json_loads_two handle_rejects_empty cfg_w1 20 queue_one_leased
       (1, row_with_payload "CaseUpdated" (Some "{oops"))
     = log_run (mark_failed cfg_w1 20
                  (log_run queue_one_leased "worker" (Some 1) "STARTED" None)
                  1 "empty payload")
         "worker" (Some 1) "FAILED" (Some "empty payload")
  /\ ev_status <$> agent_events
       (process_event json_loads_two handle_rejects_empty cfg_w1 20
          queue_one_leased (1, row_with_payload "CaseUpdated" (Some "[1]"))) !! 1
     = Some DONE.
Proof.
  split; [| split].
  - apply (parse_payload_never_raises json_loads_two handle_rejects_empty eq_refl
             cfg_w1 20 queue_one_leased 1 (row_with_payload "CaseUpdated" None)).
    left. reflexivity.
  - destruct (parse_payload_never_raises json_loads_two handle_rejects_empty
                eq_refl cfg_w1 20 queue_one_leased 1
                (row_with_payload "CaseUpdated" (Some "{oops")))
      as (_ & Hbad).
    destruct Hbad as (_ & _ & Hfirst).
    { right. right. exists "{oops". split; reflexivity. }
    apply (Hfirst CASE []); reflexivity.
  - reflexivity.
Defined.

(** ** C8: unknown event types *)

Lemma route_unknown ty : unknown_event_type ty -> route ty = [].
Proof.
  intros (Hnames & Hinv & Hrev). unfold route. rewrite Hinv, Hrev.
  repeat match goal with
  | |- context [String.eqb ty ?s] =>
      replace (String.eqb ty s) with false
        by (symmetry; apply String.eqb_neq; intros ->; apply Hnames;
            simpl; tauto)
  end.
  reflexivity.
Qed.

(** C8.  For an event whose type is unknown, [_dispatch] calls no handler
    and returns normally, leaving the database as it got it; the processing
    step of the worker loop then logs STARTED, marks the event DONE
    ([done_at = now], lease cleared) and logs DONE: [last_error],
    [attempts] and [available_at] are as before, so no error is recorded
    and no retry is scheduled. *)
Theorem unknown_event_type_ignored
    (json_loads : string -> option json)
    (handle : agent -> db -> string -> Z -> json -> db * option string)
    (cfg : config) (now : Z) (d : db) (eid : Z) (r : event) :
  unknown_event_type (event_type r) ->
  agent_events d !! eid = Some r ->
  route (event_type r) = []
  /\ (forall d0 payload,
        _dispatch handle d0 eid (event_type r) payload = (d0, None))
  /\ let d' := process_event json_loads handle cfg now d (eid, r) in
     (exists r', agent_events d' !! eid = Some r'
        /\ r' = done_update now r
        /\ ev_status r' = DONE /\ done_at r' = Some now
        /\ locked_by r' = None /\ locked_at r' = None
        /\ last_error r' = last_error r /\ attempts r' = attempts r
        /\ available_at r' = available_at r)
     /\ (forall eid', eid' <> eid ->
           agent_events d' !! eid' = agent_events d !! eid')
     /\ agent_runs d'
          = (agent_runs d ++ [mkRun "worker" (Some eid) "STARTED" None;
                              mkRun "worker" (Some eid) "DONE" None])%list.
Proof.
  intros Hunk Hr. pose proof (route_unknown _ Hunk) as Hroute.
  split; [done |].
  assert (Hdisp : forall d0 payload,
             _dispatch handle d0 eid (event_type r) payload = (d0, None)).
  { intros d0 payload. unfold _dispatch. by rewrite Hroute. }
  split; [done |]. intros d'. subst d'.
  unfold process_event. cbn [fst snd]. rewrite Hdisp.
  split; [| split].
  - exists (done_update now r). simpl. rewrite lookup_alter_eq, Hr.
    by repeat split.
  - intros eid' Hne. simpl. by rewrite lookup_alter_ne.
  - simpl. by rewrite <- app_assoc.
Qed.

Lemma unknown_event_type_ignored_witness :
  unknown_event_type "PatientBirthday"
  /\ agent_events queue_unknown_leased !! 1
       = Some (row_with_payload "PatientBirthday" (Some "{}"))
  /\ ev_status <$> (agent_events
       (process_event json_loads_braces (handle_raises "boom") cfg_w1 20
          queue_unknown_leased
          (1, row_with_payload "PatientBirthday" (Some "{}"))) !! 1)
     = Some DONE.
Proof.
  assert (Hunk : unknown_event_type "PatientBirthday").
  { split; [| split; reflexivity].
    simpl. intros H. repeat destruct H as [H | H]; try discriminate H. exact H. }
  assert (Hrow : agent_events queue_unknown_leased !! 1
                 = Some (row_with_payload "PatientBirthday" (Some "{}")))
    by reflexivity.
  split; [exact Hunk |]. split; [exact Hrow |].
  destruct (unknown_event_type_ignored json_loads_braces (handle_raises "boom")
              cfg_w1 20 queue_unknown_leased
              1 (row_with_payload "PatientBirthday" (Some "{}")) Hunk Hrow)
    as (_ & _ & (r' & Hr' & _ & Hs & _) & _).
  rewrite Hr'. simpl. by rewrite Hs.
Defined.

(** ** C3: mark_failed, retry or terminal failure *)

(** The claim as stated fails for a row whose stored [max_attempts] is 0:
    with one attempt made, [attempts >= max_attempts] holds, yet
    [mark_failed] (default maximum 8) puts the row back to NEW. *)
Lemma mark_failed_zero_max_retries :
  ~ (forall cfg now d eid err r,
       agent_events d !! eid = Some r ->
       max_attempts r <= attempts r ->
       ev_status <$> agent_events (mark_failed cfg now d eid err) !! eid
         = Some FAILED).
Proof.
  intros H.
  specialize (H cfg_w1 20
    (mkDb {[ 1 := mkEvent "CaseUpdated" (Some "{}") PROCESSING 50 1 0 0
                    (Some "W1") (Some 10) None None None None 0 10 ]} 2 [])
    1 "boom" _ eq_refl ltac:(simpl; lia)).
  vm_compute in H. discriminate H.
Qed.

Lemma enqueue_event_cases sch cfg now d ty p st prio run_at ma cb corr :
  enqueue_event sch cfg now d ty p st prio run_at ma cb corr = (d, None)
  \/ exists row,
       enqueue_event sch cfg now d ty p st prio run_at ma cb corr
       = (mkDb (<[next_id d := row]> (agent_events d)) (next_id d + 1)
            (agent_runs d),
          Some (next_id d)).
Proof.
  unfold enqueue_event.
  destruct (enqueue_statement sch cfg ty p st prio run_at ma cb corr)
    as [[cols vals] params].
  destruct (bind_params now cols vals params ≫= inserted_row now) as [row |];
    eauto.
Qed.

Lemma enqueue_event_keeps_rows sch cfg now d ty p st prio run_at ma cb corr eid r :
  ids_below_counter d ->
  agent_events d !! eid = Some r ->
  agent_events (fst (enqueue_event sch cfg now d ty p st prio run_at ma cb corr))
    !! eid = Some r.
Proof.
  intros Hwf Hr.
  destruct (enqueue_event_cases sch cfg now d ty p st prio run_at ma cb corr)
    as [-> | [row ->]]; simpl; [done |].
  rewrite lookup_insert_ne; [done |].
  intros <-. specialize (Hwf (next_id d) ltac:(eauto)). lia.
Qed.

Lemma enqueue_event_ids_below_counter sch cfg now d ty p st prio run_at ma cb corr :
  ids_below_counter d ->
  ids_below_counter
    (fst (enqueue_event sch cfg now d ty p st prio run_at ma cb corr)).
Proof.
  intros Hwf.
  destruct (enqueue_event_cases sch cfg now d ty p st prio run_at ma cb corr)
    as [-> | [row ->]]; simpl; [done |].
  intros j. simpl. intros Hj. destruct (decide (j = next_id d)) as [-> | Hne].
  - lia.
  - rewrite lookup_insert_ne in Hj by done. specialize (Hwf j Hj). lia.
Qed.

Lemma enqueue_event_runs sch cfg now d ty p st prio run_at ma cb corr :
  agent_runs (fst (enqueue_event sch cfg now d ty p st prio run_at ma cb corr))
  = agent_runs d.
Proof.
  by destruct (enqueue_event_cases sch cfg now d ty p st prio run_at ma cb corr)
    as [-> | [row ->]].
Qed.



Lemma exhausted_effective_max cfg r :
  exhausted cfg (Some r) = (effective_max (MAX_EVENT_ATTEMPTS cfg) r <=? attempts r).
Proof. reflexivity. Qed.

Lemma ids_below_counter_alter (f : event -> event) d eid :
  ids_below_counter d ->
  ids_below_counter (set_events d (alter f eid (agent_events d))).
Proof.
  intros Hwf j. simpl. intros Hj. apply Hwf.
  destruct (decide (j = eid)) as [-> | Hne].
  - rewrite lookup_alter_eq in Hj. by apply fmap_is_Some in Hj.
  - by rewrite lookup_alter_ne in Hj.
Qed.

Lemma ids_below_counter_step M d d' :
  store_step M d d' -> ids_below_counter d -> ids_below_counter d'.
Proof.
  intros Hstep Hwf. destruct Hstep.
  - by apply enqueue_event_ids_below_counter.
  - unfold lock_next_event.
    destruct (select_candidate sch cfg now (agent_events d)) as [[e r] |];
      [| done].
    by apply ids_below_counter_alter.
  - by apply ids_below_counter_alter.
  - unfold mark_failed. case_match; by apply ids_below_counter_alter.
  - exact Hwf.
Qed.

Lemma spent_step M eid d d' :
  store_step M d d' -> spent M eid d -> spent M eid d'.
Proof.
  intros Hstep [Hwf (r & Hr & Hs & Hmax)].
  split; [by eapply ids_below_counter_step |].
  destruct Hstep.
  - exists r. split; [| done]. by apply enqueue_event_keeps_rows.
  - exists r. split; [| done].
    by apply (unclaimable_row_untouched sch cfg now d eid r).
  - destruct (decide (eid0 = eid)) as [-> | Hne].
    + exists (done_update now r). by rewrite mark_done_lookup, Hr.
    + exists r. by rewrite mark_done_lookup_ne.
  - destruct (decide (eid0 = eid)) as [-> | Hne].
    + rewrite (mark_failed_lookup _ _ _ _ _ _ Hr), exhausted_effective_max.
      subst M. destruct (Z.leb_spec (effective_max (MAX_EVENT_ATTEMPTS cfg) r)
                           (attempts r)); [| lia].
      exists (failed_update now err r). by repeat split.
    + exists r. by rewrite mark_failed_lookup_ne.
  - exists r. by repeat split.
Qed.

Lemma spent_rtc M eid d d' :
  rtc (store_step M) d d' -> spent M eid d -> spent M eid d'.
Proof. induction 1; eauto using spent_step. Qed.

Lemma spent_never_locked M eid d sch cfg now row :
  spent M eid d -> snd (lock_next_event sch cfg now d) <> Some (eid, row).
Proof.
  intros [_ (r & Hr & Hs & _)].
  by apply (unclaimable_row_untouched sch cfg now d eid r).
Qed.

Lemma mark_failed_runs cfg now d eid err :
  agent_runs (mark_failed cfg now d eid err) = agent_runs d.
Proof. unfold mark_failed. by case_match. Qed.

Lemma mark_failed_ids_below_counter cfg now d eid err :
  ids_below_counter d -> ids_below_counter (mark_failed cfg now d eid err).
Proof.
  intros Hwf. unfold mark_failed. case_match; by apply ids_below_counter_alter.
Qed.

Lemma claim_update_status sch cfg now r :
  ev_status (claim_update sch cfg now r) = PROCESSING.
Proof. unfold claim_update. by repeat case_match. Qed.

Lemma claim_update_keeps sch cfg now r :
  let r' := claim_update sch cfg now r in
  event_type r' = event_type r /\ payload_json r' = payload_json r
  /\ priority r' = priority r /\ max_attempts r' = max_attempts r
  /\ created_at r' = created_at r /\ correlation_id r' = correlation_id r
  /\ created_by_user_id r' = created_by_user_id r
  /\ attempts r' = attempts r + 1.
Proof. unfold claim_update. by repeat case_match. Qed.

Lemma foreign_step_store_step eid d d' :
  foreign_step eid d d' -> exists M, store_step M d d'.
Proof.
  intros []; [exists 0 | exists 0 | exists 0 | exists (MAX_EVENT_ATTEMPTS cfg)
             | exists 0]; by constructor.
Qed.

(** An operation that does not finalise [eid] leaves its row as it is or
    claims it, which only happens to a row that is NEW or PENDING. *)
Lemma foreign_step_row eid d d' r :
  foreign_step eid d d' ->
  ids_below_counter d ->
  agent_events d !! eid = Some r ->
  agent_events d' !! eid = Some r
  \/ (status_claimable (ev_status r) = true
      /\ exists sch cfg now,
           agent_events d' !! eid = Some (claim_update sch cfg now r)).
Proof.
  intros Hstep Hwf Hr. destruct Hstep.
  - left. by apply enqueue_event_keeps_rows.
  - destruct (lock_next_event_cases sch cfg now d)
      as [[Heq _] | (e0 & r0 & Hr0 & He0 & _ & Heq)]; rewrite Heq; simpl;
      [by left |].
    destruct (decide (e0 = eid)) as [-> | Hne].
    + right. rewrite Hr in Hr0. injection Hr0 as <-. split.
      * unfold eligible in He0.
        by repeat (apply andb_true_iff in He0 as [He0 _]).
      * exists sch, cfg, now. apply lookup_insert_eq.
    + left. by rewrite lookup_insert_ne.
  - left. by rewrite mark_done_lookup_ne.
  - left. by rewrite mark_failed_lookup_ne.
  - by left.
Qed.

Lemma same_event_refl r : same_event r r.
Proof. unfold same_event. repeat split; lia. Qed.

Lemma same_event_trans r1 r2 r3 :
  same_event r1 r2 -> same_event r2 r3 -> same_event r1 r3.
Proof.
  unfold same_event. intros (-> & -> & -> & -> & -> & -> & -> & ?)
                            (-> & -> & -> & -> & -> & -> & -> & ?).
  repeat split; lia.
Qed.

Lemma store_step_same_event M d d' eid r :
  store_step M d d' -> ids_below_counter d ->
  agent_events d !! eid = Some r ->
  exists r', agent_events d' !! eid = Some r' /\ same_event r r'.
Proof.
  intros Hstep Hwf Hr. destruct Hstep.
  - exists r. split; [by apply enqueue_event_keeps_rows | apply same_event_refl].
  - destruct (lock_next_event_cases sch cfg now d)
      as [[Heq _] | (e0 & r0 & Hr0 & _ & _ & Heq)]; rewrite Heq; simpl.
    + exists r. split; [done | apply same_event_refl].
    + destruct (decide (e0 = eid)) as [-> | Hne].
      * rewrite Hr in Hr0. injection Hr0 as <-.
        exists (claim_update sch cfg now r). split; [apply lookup_insert_eq |].
        destruct (claim_update_keeps sch cfg now r)
          as (? & ? & ? & ? & ? & ? & ? & ?).
        unfold same_event. repeat split; try done. lia.
      * exists r. split; [by rewrite lookup_insert_ne | apply same_event_refl].
  - destruct (decide (eid0 = eid)) as [-> | Hne].
    + exists (done_update now r). split; [by rewrite mark_done_lookup, Hr |].
      unfold same_event. simpl. repeat split; lia.
    + exists r. split; [by rewrite mark_done_lookup_ne | apply same_event_refl].
  - destruct (decide (eid0 = eid)) as [-> | Hne].
    + rewrite (mark_failed_lookup _ _ _ _ _ _ Hr).
      eexists. split; [done |].
      unfold same_event. destruct (exhausted cfg (Some r)); simpl;
        repeat split; lia.
    + exists r. split; [by rewrite mark_failed_lookup_ne | apply same_event_refl].
  - exists r. split; [done | apply same_event_refl].
Qed.

(** A row that is out of the queue with its own, stored maximum used up
    stays so under the operations of workers with any defaults. *)
Lemma spent_own_maximum_step eid d d' :
  any_store_step d d' ->
  (ids_below_counter d /\ exists r, agent_events d !! eid = Some r
     /\ status_claimable (ev_status r) = false
     /\ max_attempts r <> 0 /\ max_attempts r <= attempts r) ->
  (ids_below_counter d' /\ exists r, agent_events d' !! eid = Some r
     /\ status_claimable (ev_status r) = false
     /\ max_attempts r <> 0 /\ max_attempts r <= attempts r).
Proof.
  intros [M Hstep] (Hwf & r & Hr & Hs & Hnz & Hmax).
  assert (Heff : forall r0, max_attempts r0 = max_attempts r ->
                   effective_max M r0 = max_attempts r).
  { intros r0 H0. unfold effective_max. rewrite H0.
    by destruct (Z.eqb_spec (max_attempts r) 0). }
  destruct (spent_step M eid d d' Hstep) as (Hwf' & r' & Hr' & Hs' & Hmax').
  { split; [done |]. exists r. rewrite (Heff r eq_refl). by repeat split. }
  destruct (store_step_same_event M d d' eid r Hstep Hwf Hr)
    as (r'' & Hr'' & _ & _ & _ & Hsame & _).
  rewrite Hr' in Hr''. injection Hr'' as <-.
  split; [done |]. exists r'. rewrite (Heff r' Hsame) in Hmax'.
  rewrite Hsame. by repeat split.
Qed.

Lemma spent_own_maximum_rtc eid d d' :
  rtc any_store_step d d' ->
  (ids_below_counter d /\ exists r, agent_events d !! eid = Some r
     /\ status_claimable (ev_status r) = false
     /\ max_attempts r <> 0 /\ max_attempts r <= attempts r) ->
  exists r, agent_events d' !! eid = Some r
    /\ status_claimable (ev_status r) = false.
Proof.
  induction 1 as [d | d d1 d' Hstep _ IH]; intros H.
  - destruct H as (_ & r & Hr & Hs & _). by exists r.
  - apply IH. by apply (spent_own_maximum_step eid d d1).
Qed.

(** The invariant of the life of a failing event with effective maximum
    [N]: after [f] failures it waits with [f] attempts made, or is being
    processed for the time [f + 1], or has failed for good at [f = N]. *)
Lemma failing_attempts_invariant M eid N f d d' :
  failing_attempts M eid f d d' ->
  ids_below_counter d ->
  1 <= N ->
  (exists r, agent_events d !! eid = Some r
     /\ effective_max M r = N /\ attempts r = 0
     /\ status_claimable (ev_status r) = true) ->
  ids_below_counter d' /\ 0 <= f
  /\ exists r', agent_events d' !! eid = Some r'
       /\ effective_max M r' = N
       /\ ((status_claimable (ev_status r') = true /\ attempts r' = f /\ f < N)
           \/ (ev_status r' = PROCESSING /\ attempts r' = f + 1 /\ f < N)
           \/ (ev_status r' = FAILED /\ attempts r' = f /\ f = N)).
Proof.
  intros Hlife Hwf HN (r & Hr & Hmax & Hatt & Hs).
  induction Hlife as [d | f d d1 d2 Hlife IH Hstep
                        | f d d1 cfg now err r1 Hlife IH Hcfg Hr1 Hs1].
  - split; [done |]. split; [lia |]. exists r.
    split; [done |]. split; [done |]. left. repeat split; try done; lia.
  - destruct (IH Hwf Hr) as (Hwf1 & Hf & r1 & Hr1 & Hmax1 & Hcase).
    split.
    { destruct (foreign_step_store_step _ _ _ Hstep) as [M' HM'].
      by apply (ids_below_counter_step M' d1). }
    split; [done |].
    destruct (foreign_step_row eid d1 d2 r1 Hstep Hwf1 Hr1)
      as [Hsame | (Hcl & sch & cfg & now & Hclaimed)].
    + exists r1. by repeat split.
    + exists (claim_update sch cfg now r1). split; [done |].
      destruct (claim_update_keeps sch cfg now r1)
        as (_ & _ & _ & Hkeep & _ & _ & _ & Hinc).
      split; [unfold effective_max in *; by rewrite Hkeep |].
      destruct Hcase as [(_ & Ha & Hlt) | [(Hp & _) | (Hp & _)]].
      * right. left. rewrite claim_update_status. repeat split; try done; lia.
      * rewrite Hp in Hcl. discriminate.
      * rewrite Hp in Hcl. discriminate.
  - destruct (IH Hwf Hr) as (Hwf1 & Hf & r1' & Hr1' & Hmax1 & Hcase).
    rewrite Hr1 in Hr1'. injection Hr1' as <-.
    split; [by apply mark_failed_ids_below_counter |]. split; [lia |].
    destruct Hcase as [(Hcl & _) | [(_ & Ha & Hlt) | (Hp & _)]].
    + rewrite Hs1 in Hcl. discriminate.
    + rewrite (mark_failed_lookup _ _ _ _ _ _ Hr1), exhausted_effective_max,
        Hcfg, Hmax1, Ha.
      destruct (Z.leb_spec N (f + 1)).
      * exists (failed_update now err r1). split; [done |].
        split; [exact Hmax1 |].
        right. right. simpl. repeat split; try done; lia.
      * exists (retry_update now err (backoff (f + 1)) r1).
        split; [done |]. split; [exact Hmax1 |].
        left. simpl. repeat split; try done; lia.
    + rewrite Hs1 in Hp. discriminate.
Qed.

(** C3, amended.  [mark_failed] compares [attempts] with the stored
    [max_attempts], or with the default [MAX_EVENT_ATTEMPTS] when the stored
    value is 0.  It always records the error text in [last_error] and clears
    [locked_by] and [locked_at]; when [attempts] has reached that maximum it
    sets the status to FAILED, otherwise it sets the status to NEW and
    [available_at] to [now + backoff(attempts)].  After the terminal
    transition no sequence of store operations (enqueue, lock, mark_done,
    mark_failed, log writes) makes [lock_next_event] return the event
    again: with a stored [max_attempts] other than 0 whatever the defaults
    of the workers that run them, with a stored 0 as long as those workers
    have the default of the one that failed the event.  And an event with
    effective maximum [N >= 1] each attempt of which ends in [mark_failed],
    whatever else the workers and producers do to the queue in between, has
    failed at most [N] times, is FAILED exactly when it has failed [N]
    times, and has made as many attempts as it has failed, one more while
    it is being processed. *)
Theorem mark_failed_retry_or_fail :
  (forall cfg now d eid err r,
     agent_events d !! eid = Some r ->
     exists r',
       agent_events (mark_failed cfg now d eid err) !! eid = Some r'
       /\ last_error r' = Some err
       /\ locked_by r' = None /\ locked_at r' = None
       /\ attempts r' = attempts r /\ max_attempts r' = max_attempts r
       /\ (effective_max (MAX_EVENT_ATTEMPTS cfg) r <= attempts r ->
           ev_status r' = FAILED /\ available_at r' = available_at r)
       /\ (attempts r < effective_max (MAX_EVENT_ATTEMPTS cfg) r ->
           ev_status r' = NEW
           /\ available_at r' = now + backoff (attempts r)))
  /\
  (forall cfg now d eid err r,
     ids_below_counter d ->
     agent_events d !! eid = Some r ->
     effective_max (MAX_EVENT_ATTEMPTS cfg) r <= attempts r ->
     forall d',
       rtc (store_step (MAX_EVENT_ATTEMPTS cfg))
         (mark_failed cfg now d eid err) d'
       \/ (max_attempts r <> 0
           /\ rtc any_store_step (mark_failed cfg now d eid err) d') ->
       forall sch cfg' now' row,
         snd (lock_next_event sch cfg' now' d') <> Some (eid, row))
  /\
  (forall M eid f d d' r,
     ids_below_counter d ->
     agent_events d !! eid = Some r ->
     attempts r = 0 ->
     ev_status r = NEW \/ ev_status r = PENDING ->
     1 <= effective_max M r ->
     failing_attempts M eid f d d' ->
     exists r',
       agent_events d' !! eid = Some r'
       /\ 0 <= f <= effective_max M r
       /\ (ev_status r' = FAILED <-> f = effective_max M r)
       /\ (ev_status r' = PROCESSING -> attempts r' = f + 1)
       /\ (ev_status r' <> PROCESSING -> attempts r' = f)
       /\ (f < effective_max M r ->
           status_claimable (ev_status r') = true \/ ev_status r' = PROCESSING)).
Proof.
  split; [| split].
  - intros cfg now d eid err r Hr.
    rewrite (mark_failed_lookup _ _ _ _ _ _ Hr), exhausted_effective_max.
    destruct (Z.leb_spec (effective_max (MAX_EVENT_ATTEMPTS cfg) r) (attempts r)).
    + exists (failed_update now err r). simpl. repeat split; try done; lia.
    + exists (retry_update now err (backoff (attempts r)) r). simpl.
      repeat split; try done; lia.
  - intros cfg now d eid err r Hwf Hr Hmax d' Hrtc sch cfg' now' row.
    assert (Hfailed : agent_events (mark_failed cfg now d eid err) !! eid
                      = Some (failed_update now err r)).
    { rewrite (mark_failed_lookup _ _ _ _ _ _ Hr), exhausted_effective_max.
      by destruct (Z.leb_spec (effective_max (MAX_EVENT_ATTEMPTS cfg) r)
                     (attempts r)); [| lia]. }
    destruct Hrtc as [Hrtc | [Hnz Hrtc]].
    + apply (spent_never_locked (MAX_EVENT_ATTEMPTS cfg)).
      apply (spent_rtc _ _ _ _ Hrtc).
      split; [by apply mark_failed_ids_below_counter |].
      exists (failed_update now err r). by repeat split.
    + destruct (spent_own_maximum_rtc eid _ d' Hrtc) as (r' & Hr' & Hs').
      { split; [by apply mark_failed_ids_below_counter |].
        exists (failed_update now err r). simpl. repeat split; try done.
        unfold effective_max in Hmax.
        by destruct (Z.eqb_spec (max_attempts r) 0). }
      by apply (unclaimable_row_untouched sch cfg' now' d' eid r').
  - intros M eid f d d' r Hwf Hr Hatt Hst Hpos Hlife.
    destruct (failing_attempts_invariant M eid (effective_max M r) f d d'
                Hlife Hwf Hpos)
      as (_ & Hf & r' & Hr' & _ & Hcase).
    { exists r. repeat split; try done. by destruct Hst as [-> | ->]. }
    exists r'. split; [done |].
    destruct Hcase as [(Hcl & Ha & Hlt) | [(Hp & Ha & Hlt) | (Hp & Ha & HfN)]].
    + split; [lia |]. split; [| split; [| split]].
      * split; [intros Hfl; rewrite Hfl in Hcl; discriminate | lia].
      * intros Hp. rewrite Hp in Hcl. discriminate.
      * done.
      * by left.
    + split; [lia |]. split; [| split; [| split]].
      * split; [intros Hfl; rewrite Hfl in Hp; discriminate | lia].
      * done.
      * intros Hnp. by rewrite Hp in Hnp.
      * by right.
    + split; [lia |]. split; [| split; [| split]].
      * done.
      * intros Hpp. rewrite Hpp in Hp. discriminate.
      * done.
      * lia.
Qed.

Lemma ids_below_counter_empty : ids_below_counter empty_db.
Proof. intros eid [r Hr]. simpl in Hr. by rewrite lookup_empty in Hr. Qed.

Lemma ids_below_counter_queue_two_attempts : ids_below_counter queue_two_attempts.
Proof.
  unfold queue_two_attempts.
  eapply (ids_below_counter_step 8); [apply step_enqueue |].
  apply ids_below_counter_empty.
Qed.

Lemma ids_below_counter_queue_last_attempt : ids_below_counter queue_last_attempt.
Proof.
  unfold queue_last_attempt.
  eapply (ids_below_counter_step 8); [apply step_lock |].
  eapply (ids_below_counter_step 8); [apply step_enqueue |].
  apply ids_below_counter_empty.
Qed.

(** Two claims of the event of [queue_two_attempts], by W1 and by W2, each
    answered by [mark_failed]. *)
Lemma failing_attempts_two :
  failing_attempts 8 1 2 queue_two_attempts
    (mark_failed cfg_w2 110
       (fst (lock_next_event ensure_schema cfg_w2 100
               (mark_failed cfg_w1 20
                  (fst (lock_next_event ensure_schema cfg_w1 10
                          queue_two_attempts)) 1 "boom")))
       1 "boom again").
Proof.
  change 2 with (0 + 1 + 1).
  eapply attempts_failure; [| reflexivity | by vm_compute | reflexivity].
  eapply attempts_other; [| apply foreign_lock].
  eapply attempts_failure; [| reflexivity | by vm_compute | reflexivity].
  eapply attempts_other; [| apply foreign_lock].
  apply attempts_none.
Qed.

Lemma mark_failed_retry_or_fail_witness :
  (ev_status <$> agent_events (mark_failed cfg_w1 20 queue_one_leased 1 "boom") !! 1
     = Some NEW
   /\ available_at <$> agent_events (mark_failed cfg_w1 20 queue_one_leased 1 "boom") !! 1
     = Some 30)
  /\ (ev_status <$> agent_events (mark_failed cfg_w1 20 queue_last_attempt 1 "boom") !! 1
       = Some FAILED
      /\ snd (lock_next_event ensure_schema cfg_w2 5000
                (mark_done 40 (mark_failed cfg_w1 20 queue_last_attempt 1 "boom") 1))
         <> Some (1, row_last_attempt)
      /\ snd (lock_next_event ensure_schema cfg_w2 5000
                (mark_failed (mkConfig "W3" 300 99) 40
                   (mark_failed cfg_w1 20 queue_last_attempt 1 "boom") 1 "late"))
         <> Some (1, row_last_attempt))
  /\ ev_status <$> agent_events
       (mark_failed cfg_w2 110
          (fst (lock_next_event ensure_schema cfg_w2 100
                  (mark_failed cfg_w1 20
                     (fst (lock_next_event ensure_schema cfg_w1 10
                             queue_two_attempts)) 1 "boom")))
          1 "boom again") !! 1
     = Some FAILED.
Proof.
  destruct mark_failed_retry_or_fail as (Hcase & Hnever & Hlife).
  split; [| split].
  - destruct (Hcase cfg_w1 20 queue_one_leased 1 "boom" leased_row eq_refl)
      as (r' & Hr' & _ & _ & _ & _ & _ & _ & Hretry).
    destruct Hretry as [Hs Ha]; [reflexivity |].
    rewrite Hr'. simpl. rewrite Hs, Ha. by split.
  - split; [reflexivity |]. split.
    + apply (Hnever cfg_w1 20 queue_last_attempt 1 "boom" row_last_attempt
               ids_below_counter_queue_last_attempt eq_refl
               ltac:(vm_compute; discriminate)).
      left. apply rtc_once. apply step_done.
    + apply (Hnever cfg_w1 20 queue_last_attempt 1 "boom" row_last_attempt
               ids_below_counter_queue_last_attempt eq_refl
               ltac:(vm_compute; discriminate)).
      right. split; [discriminate |].
      apply rtc_once. exists 99. by apply step_failed.
  - destruct (Hlife 8 1 2 queue_two_attempts _ row_two_attempts
                ids_below_counter_queue_two_attempts eq_refl eq_refl
                ltac:(by left) ltac:(vm_compute; discriminate)
                failing_attempts_two)
      as (r' & Hr' & _ & Hiff & _).
    rewrite Hr'. simpl. f_equal. by apply Hiff.
Defined.

(** With a stored [max_attempts] of 0 the terminal state holds only among
    workers of one default: a worker whose default is larger puts the FAILED
    row back to NEW, and the next [lock_next_event] returns it. *)
Example failed_row_revived_by_larger_default :
  ev_status <$> agent_events (mark_failed (mkConfig "W1" 300 1) 20 queue_zero_max
                                1 "boom") !! 1 = Some FAILED
  /\ fst <$> snd (lock_next_event ensure_schema cfg_w2 5000
                    (mark_failed cfg_w2 40
                       (mark_failed (mkConfig "W1" 300 1) 20 queue_zero_max
                          1 "boom") 1 "late"))
     = Some 1.
Proof. split; by vm_compute. Qed.

(** * Further properties of the event store *)

Lemma ids_below_counter_rtc M d d' :
  rtc (store_step M) d d' -> ids_below_counter d -> ids_below_counter d'.
Proof. induction 1; eauto using ids_below_counter_step. Qed.

Lemma reachable_queue_ABC : rtc (store_step 8) empty_db queue_ABC.
Proof.
  unfold queue_ABC.
  eapply rtc_l; [apply step_enqueue |].
  eapply rtc_l; [apply step_enqueue |].
  apply rtc_once. apply step_enqueue.
Qed.

(** ** enqueue_event *)





(** On a table that has [max_attempts] and [available_at] but no
    [priority] column, the three [insert(4, ...)] calls leave the parameters
    in another order than the columns: [params] has three entries when
    [max_attempts] is inserted at index 4, so the value is appended, and so
    is [run_at] after it, while in [cols] and [vals] the later insertion
    goes in front.  The statement then hands the maximum of attempts to
    [available_at] and [run_at] to [max_attempts]; the server takes
    neither, so on such a table every call of [enqueue_event] raises and
    writes nothing. *)
Theorem enqueue_event_without_priority_swaps (sch : schema) (cfg : config)
    (now : Z) (d : db) (ty payload : string) (st : status) (prio : Z)
    (run_at max_att created_by : option Z) (corr : option string) :
  has_priority sch = false ->
  has_max_attempts sch = true ->
  has_available_at sch = true ->
  (exists b,
     (let '(cols, vals, params) :=
        enqueue_statement sch cfg ty payload st prio run_at max_att
          created_by corr in
      bind_params now cols vals params) = Some b
     /\ column_value b "max_attempts"
        = Some match run_at with
               | Some t => SqlTime t
               | None => SqlNull
               end
     /\ column_value b "available_at"
        = Some (SqlNum match max_att with
                       | Some m => if m =? 0 then MAX_EVENT_ATTEMPTS cfg else m
                       | None => MAX_EVENT_ATTEMPTS cfg
                       end)
     /\ column_value b "priority" = None)
  /\ enqueue_event sch cfg now d ty payload st prio run_at max_att created_by corr
     = (d, None).
Proof.
  destruct sch as [av pr ma cb co lb la]. simpl. intros -> -> ->.
  unfold enqueue_event, enqueue_statement. simpl.
  destruct created_by as [u |], cb, corr as [c |], co, run_at as [t |]; simpl;
    try destruct (String.eqb c ""); simpl;
    (split; [eexists; by repeat split | reflexivity]).
Qed.

Lemma enqueue_event_without_priority_swaps_witness :
  enqueue_event (mkSchema true false true true true true true)
    cfg_w1 7 queue_ABC "D" "{}" NEW 1 (Some 1000) (Some 3) None None
  = (queue_ABC, None).
Proof.
  apply (enqueue_event_without_priority_swaps
           (mkSchema true false true true true true true)
           cfg_w1 7 queue_ABC "D" "{}" NEW 1 (Some 1000) (Some 3) None None
           eq_refl eq_refl eq_refl).
Defined.

(** ** One owner at a time *)

Lemma foreign_step_keeps_claimed eid d d' r :
  foreign_step eid d d' ->
  ids_below_counter d ->
  agent_events d !! eid = Some r -> ev_status r = PROCESSING ->
  ids_below_counter d' /\ agent_events d' !! eid = Some r.
Proof.
  intros Hstep Hwf Hr Hs. split.
  { destruct (foreign_step_store_step _ _ _ Hstep) as [M HM].
    by apply (ids_below_counter_step M d). }
  destruct Hstep.
  - by apply enqueue_event_keeps_rows.
  - apply (unclaimable_row_untouched sch cfg now d eid r Hr). by rewrite Hs.
  - by rewrite mark_done_lookup_ne.
  - by rewrite mark_failed_lookup_ne.
  - done.
Qed.

(** Once [lock_next_event] has handed an event to a worker, nothing the
    other workers and the producers do (enqueueing, locking, finalising
    other events, logging) changes that event's row, and no call of
    [lock_next_event], by any worker at any time, returns the event again:
    until its owner finalises it, the event has one owner. *)
Theorem locked_event_has_one_owner (sch : schema) (cfg : config) (now : Z)
    (d d1 d2 : db) (eid : Z) (r : event) :
  ids_below_counter d ->
  lock_next_event sch cfg now d = (d1, Some (eid, r)) ->
  rtc (foreign_step eid) d1 d2 ->
  agent_events d2 !! eid = Some r
  /\ ev_status r = PROCESSING
  /\ forall sch' cfg' now' row,
       snd (lock_next_event sch' cfg' now' d2) <> Some (eid, row).
Proof.
  intros Hwf Hlock Hrtc.
  assert (H1 : ids_below_counter d1 /\ agent_events d1 !! eid = Some r
               /\ ev_status r = PROCESSING).
  { destruct (lock_next_event_cases sch cfg now d)
      as [[Heq _] | (e0 & r0 & Hr0 & _ & _ & Heq)]; [congruence |].
    rewrite Heq in Hlock. injection Hlock as <- <- <-.
    split; [| split].
    - intros j. simpl. intros Hj. apply Hwf.
      destruct (decide (j = e0)) as [-> | Hne]; [eauto |].
      by rewrite lookup_insert_ne in Hj.
    - simpl. apply lookup_insert_eq.
    - apply claim_update_status. }
  destruct H1 as (Hwf1 & Hr1 & Hs).
  assert (H2 : ids_below_counter d2 /\ agent_events d2 !! eid = Some r).
  { clear Hlock. induction Hrtc as [| x y z Hstep _ IH]; [done |].
    destruct (foreign_step_keeps_claimed eid x y r Hstep Hwf1 Hr1 Hs).
    by apply IH. }
  destruct H2 as [_ Hr2]. split; [done |]. split; [done |].
  intros sch' cfg' now' row.
  apply (unclaimable_row_untouched sch' cfg' now' d2 eid r Hr2). by rewrite Hs.
Qed.

Lemma ids_below_counter_queue_ABC : ids_below_counter queue_ABC.
Proof.
  apply (ids_below_counter_rtc 8 empty_db); [apply reachable_queue_ABC |].
  apply ids_below_counter_empty.
Qed.

Lemma locked_event_has_one_owner_witness :
  snd (lock_next_event ensure_schema cfg_w2 6
         (mark_done 6
            (fst (lock_next_event ensure_schema cfg_w2 5
                    (fst (lock_next_event ensure_schema cfg_w1 5 queue_ABC))))
            1))
  <> Some (3, claim_update ensure_schema cfg_w1 5 row_C).
Proof.
  eapply (locked_event_has_one_owner ensure_schema cfg_w1 5 queue_ABC
            (fst (lock_next_event ensure_schema cfg_w1 5 queue_ABC))
            _ 3 (claim_update ensure_schema cfg_w1 5 row_C)
            ids_below_counter_queue_ABC).
  - reflexivity.
  - eapply rtc_l; [apply (foreign_lock 3 ensure_schema cfg_w2 5) |].
    apply rtc_once. apply foreign_done. discriminate.
Defined.

(** ** The retry delay is honoured *)

(** After [mark_failed] has put an event back to NEW at time [now], the
    event is not eligible, and [lock_next_event] does not return it to any
    worker, at any time before [now + backoff(attempts)]; from that time on
    it is eligible again. *)
Theorem retried_event_waits_for_backoff (cfg : config) (now : Z) (d : db)
    (eid : Z) (err : string) (r : event) :
  agent_events d !! eid = Some r ->
  exhausted cfg (Some r) = false ->
  let d1 := mark_failed cfg now d eid err in
  exists r1, agent_events d1 !! eid = Some r1
    /\ (forall cfg' t, eligible ensure_schema cfg' t r1 = true
                       <-> now + backoff (attempts r) <= t)
    /\ (forall cfg' t row, t < now + backoff (attempts r) ->
          snd (lock_next_event ensure_schema cfg' t d1) <> Some (eid, row))
    /\ now + 10 <= available_at r1 <= now + 600.
Proof.
  intros Hr Hex d1.
  exists (retry_update now err (backoff (attempts r)) r).
  assert (Hr1 : agent_events d1 !! eid
                = Some (retry_update now err (backoff (attempts r)) r)).
  { subst d1. by rewrite (mark_failed_lookup _ _ _ _ _ _ Hr), Hex. }
  assert (Hel : forall cfg' t,
            eligible ensure_schema cfg' t
              (retry_update now err (backoff (attempts r)) r) = true
            <-> now + backoff (attempts r) <= t).
  { intros cfg' t. unfold eligible, lease_free. simpl.
    rewrite andb_true_r. apply Z.leb_le. }
  split; [done |]. split; [done |]. split.
  - intros cfg' t row Ht.
    destruct (lock_next_event_cases ensure_schema cfg' t d1)
      as [[Heq _] | (e0 & r0 & Hr0 & He0 & _ & Heq)]; rewrite Heq; simpl;
      [done |].
    intros [= -> _]. rewrite Hr1 in Hr0. injection Hr0 as <-.
    apply Hel in He0. lia.
  - simpl. pose proof (backoff_bounds (attempts r)). lia.
Qed.

Lemma retried_event_waits_for_backoff_witness :
  snd (lock_next_event ensure_schema cfg_w2 29
         (mark_failed cfg_w1 20 queue_one_leased 1 "boom"))
  <> Some (1, leased_row).
Proof.
  destruct (retried_event_waits_for_backoff cfg_w1 20 queue_one_leased 1 "boom"
              leased_row eq_refl eq_refl) as (r1 & _ & _ & Hwait & _).
  apply Hwait. reflexivity.
Defined.

(** ** What the store operations never change *)

(** In a database whose ids are below the counter, no sequence of store
    operations deletes an event or changes its type, payload, priority,
    [max_attempts], [created_at], [correlation_id] or [created_by_user_id],
    and its [attempts] never go down. *)
Theorem store_never_rewrites_event (M : Z) (d d' : db) (eid : Z) (r : event) :
  ids_below_counter d ->
  rtc (store_step M) d d' ->
  agent_events d !! eid = Some r ->
  exists r', agent_events d' !! eid = Some r'
    /\ event_type r' = event_type r /\ payload_json r' = payload_json r
    /\ priority r' = priority r /\ max_attempts r' = max_attempts r
    /\ created_at r' = created_at r /\ correlation_id r' = correlation_id r
    /\ created_by_user_id r' = created_by_user_id r
    /\ attempts r <= attempts r'.
Proof.
  intros Hwf Hrtc. revert r Hwf.
  induction Hrtc as [| x y z Hstep _ IH]; intros r Hwf Hr.
  - exists r. split; [done |]. apply same_event_refl.
  - destruct (store_step_same_event M x y eid r Hstep Hwf Hr) as (r1 & Hr1 & H1).
    destruct (IH r1 (ids_below_counter_step M x y Hstep Hwf) Hr1)
      as (r2 & Hr2 & H2).
    exists r2. split; [done |]. exact (same_event_trans r r1 r2 H1 H2).
Qed.

Lemma store_never_rewrites_event_witness :
  exists r', agent_events
               (mark_failed cfg_w1 9
                  (fst (lock_next_event ensure_schema cfg_w1 5 queue_ABC)) 3 "boom")
             !! 3 = Some r'
    /\ payload_json r' = Some "{}" /\ priority r' = 5 /\ 0 <= attempts r'.
Proof.
  destruct (store_never_rewrites_event 8 queue_ABC
              (mark_failed cfg_w1 9
                 (fst (lock_next_event ensure_schema cfg_w1 5 queue_ABC)) 3 "boom")
              3 row_C ids_below_counter_queue_ABC)
    as (r' & Hr' & _ & Hp & Hprio & _ & _ & _ & _ & Hatt).
  - eapply rtc_l; [apply (step_lock 8 ensure_schema cfg_w1 5) |].
    apply rtc_once. by apply step_failed.
  - reflexivity.
  - exists r'. split; [exact Hr' |]. split; [exact Hp |].
    split; [exact Hprio | exact Hatt].
Defined.

(** No store operation removes or rewrites an entry of the run log: the
    log before any sequence of operations is a prefix of the log after. *)
Theorem run_log_append_only (M : Z) (d d' : db) :
  rtc (store_step M) d d' ->
  exists added, agent_runs d' = (agent_runs d ++ added)%list.
Proof.
  induction 1 as [d | x y z Hstep _ [added IH]].
  - exists []. by rewrite app_nil_r.
  - assert (Hy : exists a, agent_runs y = (agent_runs x ++ a)%list).
    { destruct Hstep.
      - exists []. by rewrite enqueue_event_runs, app_nil_r.
      - exists []. rewrite app_nil_r. unfold lock_next_event.
        by destruct (select_candidate sch cfg now (agent_events d)) as [[] |].
      - exists []. simpl. by rewrite app_nil_r.
      - exists []. by rewrite mark_failed_runs, app_nil_r.
      - by eexists. }
    destruct Hy as [a Ha]. exists (a ++ added)%list.
    by rewrite IH, Ha, app_assoc.
Qed.

Lemma run_log_append_only_witness :
  exists added,
    agent_runs (log_run (mark_done 9 queue_one_leased 1) "worker" (Some 1) "DONE" None)
    = (agent_runs queue_one_leased ++ added)%list.
Proof.
  apply (run_log_append_only 8).
  eapply rtc_l; [apply step_done |]. apply rtc_once. apply step_log.
Defined.

(** ** Finalising different events *)

Lemma alter_alter_ne (f g : event -> event) (m : gmap Z event) i j :
  i <> j -> alter f i (alter g j m) = alter g j (alter f i m).
Proof.
  intros Hne. apply map_eq. intros k.
  destruct (decide (k = i)) as [Hi | Hi]; [subst k |].
  - by rewrite lookup_alter_eq, !lookup_alter_ne, lookup_alter_eq by done.
  - destruct (decide (k = j)) as [Hj | Hj]; [subst k |].
    + by rewrite lookup_alter_ne, !lookup_alter_eq, lookup_alter_ne by done.
    + by rewrite !lookup_alter_ne by done.
Qed.

(** Finalisations of two different events do not interfere: completing
    one and failing the other give the same database in either order, and so
    do two failures. *)
Theorem finalisations_commute (cfg1 cfg2 : config) (t1 t2 : Z) (d : db)
    (e1 e2 : Z) (err1 err2 : string) :
  e1 <> e2 ->
  mark_done t1 (mark_failed cfg2 t2 d e2 err2) e1
    = mark_failed cfg2 t2 (mark_done t1 d e1) e2 err2
  /\ mark_failed cfg1 t1 (mark_failed cfg2 t2 d e2 err2) e1 err1
    = mark_failed cfg2 t2 (mark_failed cfg1 t1 d e1 err1) e2 err2
  /\ mark_done t1 (mark_done t2 d e2) e1 = mark_done t2 (mark_done t1 d e1) e2.
Proof.
  intros Hne.
  assert (Hd : forall t e e', e' <> e ->
            agent_events (mark_done t d e) !! e' = agent_events d !! e')
    by (intros; by apply mark_done_lookup_ne).
  split; [| split].
  - unfold mark_failed at 2. rewrite (Hd t1 e1 e2) by done.
    unfold mark_failed, mark_done, set_events.
    destruct (exhausted cfg2 (agent_events d !! e2)); simpl; f_equal;
      by apply alter_alter_ne.
  - unfold mark_failed at 1 3.
    rewrite !mark_failed_lookup_ne by done.
    unfold mark_failed, set_events.
    destruct (exhausted cfg1 (agent_events d !! e1));
      destruct (exhausted cfg2 (agent_events d !! e2)); simpl; f_equal;
      by apply alter_alter_ne.
  - unfold mark_done, set_events. simpl. f_equal. by apply alter_alter_ne.
Qed.

Lemma finalisations_commute_witness :
  mark_done 30 (mark_failed cfg_w2 40 queue_ABC 2 "boom") 1
  = mark_failed cfg_w2 40 (mark_done 30 queue_ABC 1) 2 "boom".
Proof.
  apply (finalisations_commute cfg_w1 cfg_w2 30 40 queue_ABC 1 2 "" "boom").
  discriminate.
Defined.

(** * Further properties of the worker *)

(** ** The router *)

Lemma route_known ty : route ty = [] -> unknown_event_type ty.
Proof.
  unfold route, unknown_event_type.
  repeat match goal with
  | |- context [String.eqb ty ?s] => destruct (String.eqb_spec ty s)
  | |- context [String.prefix ?p ty] => destruct (String.prefix p ty) eqn:?
  end; simpl; try discriminate.
  intros _. split; [| done]. intros H.
  repeat destruct H as [H | H]; try (symmetry in H; contradiction). exact H.
Qed.

(** [_dispatch] calls no handler exactly for the event types that are
    none of the names it compares with and carry neither prefix; for every
    other type it calls at least one.  It never calls an agent twice for one
    event, and the agents it calls come in the order APPT, INV, REV, CASE. *)
Theorem route_handles_known_types (ty : string) :
  (route ty = [] <-> unknown_event_type ty)
  /\ sublist (route ty) [APPT; INV; REV; CASE].
Proof.
  split; [split; [apply route_known | apply route_unknown] |].
  unfold route.
  repeat case_match;
    repeat first [apply sublist_nil | apply sublist_skip | apply sublist_cons].
Qed.

(** ** Fan-out *)

Section FanOut.

Variable json_loads : string -> option json.
Variable handle : agent -> db -> string -> Z -> json -> db * option string.

Lemma call_handlers_app l1 l2 d eid ty payload :
  call_handlers handle (l1 ++ l2) d eid ty payload
  = match call_handlers handle l1 d eid ty payload with
    | (d1, None) => call_handlers handle l2 d1 eid ty payload
    | (d1, Some e) => (d1, Some e)
    end.
Proof.
  revert d. induction l1 as [| a l1 IH]; intros d; simpl; [done |].
  destruct (handle a d ty eid payload) as [d' [e |]]; [done | apply IH].
Qed.

(** When the handlers called first return and the next one raises, the
    handlers after it are not called: the outcome of the fan-out is the
    database as the raising handler left it and its error, whatever the
    remaining handlers would have done; the processing step then reports the
    event as failed with that error. *)
Theorem fan_out_stops_at_first_failure (cfg : config) (now : Z) (d d1 d2 : db)
    (eid : Z) (r : event) (l1 l2 : list agent) (a : agent) (e : string) :
  route (event_type r) = (l1 ++ a :: l2)%list ->
  call_handlers handle l1 (log_run d "worker" (Some eid) "STARTED" None)
    eid (event_type r) (_parse_payload json_loads r) = (d1, None) ->
  handle a d1 (event_type r) eid (_parse_payload json_loads r) = (d2, Some e) ->
  _dispatch handle (log_run d "worker" (Some eid) "STARTED" None)
    eid (event_type r) (_parse_payload json_loads r) = (d2, Some e)
  /\ process_event json_loads handle cfg now d (eid, r)
     = log_run (mark_failed cfg now d2 eid e) "worker" (Some eid) "FAILED" (Some e).
Proof.
  intros Hroute H1 Ha.
  assert (Hd : _dispatch handle (log_run d "worker" (Some eid) "STARTED" None)
                 eid (event_type r) (_parse_payload json_loads r) = (d2, Some e)).
  { unfold _dispatch. rewrite Hroute, call_handlers_app, H1. simpl. by rewrite Ha. }
  split; [exact Hd |]. unfold process_event. cbn [fst snd]. by rewrite Hd.
Qed.

Hypothesis handle_keeps_queue : handlers_keep_queue handle.

Lemma call_handlers_keep_queue l d eid ty payload :
  agent_events (fst (call_handlers handle l d eid ty payload)) = agent_events d
  /\ agent_runs (fst (call_handlers handle l d eid ty payload)) = agent_runs d.
Proof.
  revert d. induction l as [| a l IH]; intros d; simpl; [done |].
  destruct (handle_keeps_queue a d ty eid payload) as (He & Hr & _).
  destruct (handle a d ty eid payload) as [d' [e |]]; simpl in *; [done |].
  destruct (IH d') as [He' Hr']. split; congruence.
Qed.

Lemma call_handlers_keep_counter l d eid ty payload :
  next_id (fst (call_handlers handle l d eid ty payload)) = next_id d.
Proof.
  revert d. induction l as [| a l IH]; intros d; simpl; [done |].
  destruct (handle_keeps_queue a d ty eid payload) as (_ & _ & Hn).
  destruct (handle a d ty eid payload) as [d' [e |]]; simpl in *; [done |].
  by rewrite IH.
Qed.

Lemma process_event_keeps_counter cfg now d eid r :
  next_id (process_event json_loads handle cfg now d (eid, r)) = next_id d.
Proof.
  unfold process_event, _dispatch. cbn [fst snd].
  pose proof (call_handlers_keep_counter (route (event_type r))
                (log_run d "worker" (Some eid) "STARTED" None) eid
                (event_type r) (_parse_payload json_loads r)) as Hn.
  destruct (call_handlers handle (route (event_type r))
              (log_run d "worker" (Some eid) "STARTED" None) eid (event_type r)
              (_parse_payload json_loads r)) as [d2 [e |]]; simpl in *.
  - unfold mark_failed. by case_match.
  - done.
Qed.

Lemma process_event_outcome (cfg : config) (now : Z) (d : db)
    (eid : Z) (r : event) :
  agent_events d !! eid = Some r ->
  let d' := process_event json_loads handle cfg now d (eid, r) in
  exists r' outcome,
    agent_events d' !! eid = Some r'
    /\ agent_runs d'
       = (agent_runs d ++ [mkRun "worker" (Some eid) "STARTED" None; outcome])%list
    /\ actor outcome = "worker" /\ event_id outcome = Some eid
    /\ locked_by r' = None /\ locked_at r' = None
    /\ attempts r' = attempts r
    /\ ((run_status outcome = "DONE" /\ error_text outcome = None
         /\ ev_status r' = DONE /\ done_at r' = Some now
         /\ last_error r' = last_error r)
        \/ (run_status outcome = "FAILED" /\ exists e,
              error_text outcome = Some e /\ last_error r' = Some e
              /\ (ev_status r' = NEW \/ ev_status r' = FAILED)))
    /\ forall eid', eid' <> eid ->
         agent_events d' !! eid' = agent_events d !! eid'.
Proof.
  intros Hr d'. subst d'. unfold process_event, _dispatch. cbn [fst snd].
  destruct (call_handlers_keep_queue (route (event_type r))
              (log_run d "worker" (Some eid) "STARTED" None) eid (event_type r)
              (_parse_payload json_loads r)) as [He Hl].
  destruct (call_handlers handle (route (event_type r))
              (log_run d "worker" (Some eid) "STARTED" None) eid (event_type r)
              (_parse_payload json_loads r)) as [d2 [e |]]; simpl in He, Hl.
  - assert (Hr2 : agent_events d2 !! eid = Some r) by (by rewrite He).
    eexists. exists (mkRun "worker" (Some eid) "FAILED" (Some e)).
    split; [simpl; apply (mark_failed_lookup _ _ _ _ _ _ Hr2) |].
    split; [simpl; by rewrite mark_failed_runs, Hl, <- app_assoc |].
    simpl. repeat split; try by destruct (exhausted cfg (Some r)).
    + right. split; [done |]. exists e.
      destruct (exhausted cfg (Some r)); simpl; auto.
    + intros eid' Hne. by rewrite mark_failed_lookup_ne, He.
  - exists (done_update now r), (mkRun "worker" (Some eid) "DONE" None).
    split; [simpl; by rewrite lookup_alter_eq, He, Hr |].
    split; [simpl; by rewrite Hl, <- app_assoc |].
    simpl. repeat split; try done.
    + by left.
    + intros eid' Hne. by rewrite lookup_alter_ne, He.
Qed.

(** With handlers that leave the queue's tables alone, the processing
    step always releases the lease and never leaves the event PROCESSING; it
    appends exactly two entries to the run log, STARTED and then the
    outcome, and the outcome agrees with the row: DONE with [done_at = now]
    and no error text, or FAILED with the error text that is also stored in
    [last_error], the row being NEW again or FAILED for good.  No other row
    and not the id counter is touched. *)
Theorem process_event_log_matches_row (cfg : config) (now : Z) (d : db)
    (eid : Z) (r : event) :
  agent_events d !! eid = Some r ->
  let d' := process_event json_loads handle cfg now d (eid, r) in
  exists r' outcome,
    next_id d' = next_id d
    /\ agent_events d' !! eid = Some r'
    /\ agent_runs d'
       = (agent_runs d ++ [mkRun "worker" (Some eid) "STARTED" None; outcome])%list
    /\ actor outcome = "worker" /\ event_id outcome = Some eid
    /\ locked_by r' = None /\ locked_at r' = None
    /\ attempts r' = attempts r
    /\ ((run_status outcome = "DONE" /\ error_text outcome = None
         /\ ev_status r' = DONE /\ done_at r' = Some now
         /\ last_error r' = last_error r)
        \/ (run_status outcome = "FAILED" /\ exists e,
              error_text outcome = Some e /\ last_error r' = Some e
              /\ (ev_status r' = NEW \/ ev_status r' = FAILED)))
    /\ forall eid', eid' <> eid ->
         agent_events d' !! eid' = agent_events d !! eid'.
Proof.
  intros Hr d'.
  destruct (process_event_outcome cfg now d eid r Hr) as (r' & outcome & H).
  exists r', outcome. split; [| exact H].
  apply process_event_keeps_counter.
Qed.

Lemma remove_last_entry_app x l : remove_last_entry x (l ++ [x]) = l.
Proof.
  induction l as [| y l IH]; simpl.
  - repeat case_bool_decide; done.
  - rewrite bool_decide_eq_true_2; [by rewrite IH |].
    apply elem_of_app. right. by apply list_elem_of_singleton.
Qed.

(** Where [mark_done] raises, [mark_failed] raises too, whatever the
    error text: the [except] branch of step 3 then ends in [rollback]. *)
Lemma mark_failed_raises_where_mark_done_does sch cfg now1 now2 d1 d2 eid err :
  mark_done_on sch now1 d1 eid = None ->
  mark_failed_on sch cfg now2 d2 eid err = None.
Proof.
  unfold mark_done_on, mark_failed_on.
  destruct (has_locked_by sch && has_locked_at sch); [done |]. intros _.
  simpl. by repeat case_match.
Qed.

(** On a table with the finalisers' columns, step 3 is [process_event]. *)
Lemma step3_finish_full_columns sch cfg now d row :
  finaliser_columns sch = true ->
  step3_finish json_loads handle sch cfg now (step3_start d row) row
  = process_event json_loads handle cfg now d row.
Proof.
  unfold finaliser_columns. intros Hcols.
  apply andb_true_iff in Hcols as [Hcols Hav].
  apply andb_true_iff in Hcols as [Hcols Hmax].
  unfold step3_finish, step3_start, process_event, mark_done_on, mark_failed_on.
  rewrite Hcols, Hmax, Hav.
  destruct (_dispatch handle _ _ _ _) as [d2 [e |]]; [| done].
  by destruct (exhausted cfg (agent_events d2 !! fst row)).
Qed.

(** On a table without [locked_by] or without [locked_at], step 3 ends in
    [rollback]. *)
Lemma step3_finish_rolls_back sch cfg now d row :
  has_locked_by sch && has_locked_at sch = false ->
  step3_finish json_loads handle sch cfg now d row
  = rollback_step3 d
      (fst (_dispatch handle d (fst row) (event_type (snd row))
              (_parse_payload json_loads (snd row))))
      (fst row).
Proof.
  intros Hcols. unfold step3_finish, mark_done_on, mark_failed_on.
  rewrite Hcols. simpl.
  destruct (_dispatch handle _ _ _ _) as [d2 [e |]]; [| done]. simpl.
  by repeat case_match.
Qed.

Lemma dispatch_keeps_queue d eid ty payload :
  agent_events (fst (_dispatch handle d eid ty payload)) = agent_events d
  /\ agent_runs (fst (_dispatch handle d eid ty payload)) = agent_runs d
  /\ next_id (fst (_dispatch handle d eid ty payload)) = next_id d.
Proof.
  unfold _dispatch.
  destruct (call_handlers_keep_queue (route ty) d eid ty payload) as [He Hr].
  split; [done |]. split; [done |]. apply call_handlers_keep_counter.
Qed.

(** The three ways step 3 ends. *)
Lemma step3_finish_cases sch cfg now d row :
  let d2 := fst (_dispatch handle d (fst row) (event_type (snd row))
                   (_parse_payload json_loads (snd row))) in
  step3_finish json_loads handle sch cfg now d row
    = log_run (mark_done now d2 (fst row)) "worker" (Some (fst row)) "DONE" None
  \/ (exists e,
        step3_finish json_loads handle sch cfg now d row
        = log_run (mark_failed cfg now d2 (fst row) e) "worker" (Some (fst row))
            "FAILED" (Some e))
  \/ step3_finish json_loads handle sch cfg now d row
     = rollback_step3 d d2 (fst row).
Proof.
  unfold step3_finish, mark_done_on, mark_failed_on.
  destruct (_dispatch handle _ _ _ _) as [d2 [e |]]; simpl.
  - repeat case_match; simplify_eq; eauto.
  - repeat case_match; simplify_eq; eauto.
Qed.

(** Step 3 touches no row but the one it was given, and not the counter,
    whether it commits or rolls back. *)
Lemma step3_finish_other_rows sch cfg now d row :
  next_id (step3_finish json_loads handle sch cfg now d row) = next_id d
  /\ forall eid', eid' <> fst row ->
       agent_events (step3_finish json_loads handle sch cfg now d row) !! eid'
       = agent_events d !! eid'.
Proof.
  destruct (dispatch_keeps_queue d (fst row) (event_type (snd row))
              (_parse_payload json_loads (snd row))) as (He & _ & Hn).
  destruct (step3_finish_cases sch cfg now d row) as [-> | [[e ->] | ->]];
    simpl; (split; [| intros eid' Hne]).
  - exact Hn.
  - by rewrite lookup_alter_ne, He.
  - unfold mark_failed. by case_match.
  - by rewrite mark_failed_lookup_ne, He.
  - exact Hn.
  - done.
Qed.

Lemma step3_finish_rows sch cfg now d row j :
  is_Some (agent_events (step3_finish json_loads handle sch cfg now d row) !! j) ->
  is_Some (agent_events d !! j).
Proof.
  destruct (dispatch_keeps_queue d (fst row) (event_type (snd row))
              (_parse_payload json_loads (snd row))) as (He & _ & _).
  destruct (step3_finish_cases sch cfg now d row) as [-> | [[e ->] | ->]];
    simpl; [| | done].
  - destruct (decide (j = fst row)) as [-> | Hne].
    + rewrite lookup_alter_eq, He. by intros ?%fmap_is_Some.
    + by rewrite lookup_alter_ne, He.
  - destruct (decide (j = fst row)) as [-> | Hne].
    + unfold mark_failed. case_match; simpl;
        rewrite lookup_alter_eq, He; by intros ?%fmap_is_Some.
    + by rewrite mark_failed_lookup_ne, He.
Qed.

Lemma step3_finish_ids_below_counter sch cfg now d row :
  ids_below_counter d ->
  ids_below_counter (step3_finish json_loads handle sch cfg now d row).
Proof.
  intros Hwf j Hj.
  destruct (step3_finish_other_rows sch cfg now d row) as [Hn _].
  rewrite Hn. apply Hwf. by apply (step3_finish_rows sch cfg now d row).
Qed.

Lemma run_loop_step_full_columns sch cfg t_lock t_end d :
  finaliser_columns sch = true ->
  run_loop_step json_loads handle sch cfg t_lock t_end d
  = match lock_next_event sch cfg t_lock d with
    | (d1, None) => d1
    | (d1, Some row) => process_event json_loads handle cfg t_end d1 row
    end.
Proof.
  intros Hcols. unfold run_loop_step.
  destruct (lock_next_event sch cfg t_lock d) as [d1 [row |]]; [| done].
  by apply step3_finish_full_columns.
Qed.

(** With such handlers and on a table that has the columns the finalisers
    name, an iteration of the loop finalises what it locks: if no event is
    PROCESSING before steps 2 and 3, none is after.  On a table without
    [locked_by] or without [locked_at] it does not: [lock_next_event] adapts
    to the table and claims the event, [mark_done] and [mark_failed] do not
    and raise, step 3 is rolled back, and the iteration leaves the database
    as step 2 committed it, the event PROCESSING and nothing logged. *)
Theorem loop_step_leaves_none_processing (sch : schema) (cfg : config)
    (t_lock t_end : Z) (d : db) :
  (finaliser_columns sch = true ->
   none_processing d ->
   none_processing (run_loop_step json_loads handle sch cfg t_lock t_end d))
  /\ (has_locked_by sch && has_locked_at sch = false ->
      forall d1 eid r,
        lock_next_event sch cfg t_lock d = (d1, Some (eid, r)) ->
        run_loop_step json_loads handle sch cfg t_lock t_end d = d1
        /\ agent_events d1 !! eid = Some r
        /\ ev_status r = PROCESSING).
Proof.
  split.
  - intros Hcols Hnone. rewrite (run_loop_step_full_columns _ _ _ _ _ Hcols).
    destruct (lock_next_event_cases sch cfg t_lock d)
      as [[Heq _] | (e0 & r0 & Hr0 & _ & _ & Heq)]; rewrite Heq; [done |].
    set (d1 := set_events d (<[e0:=claim_update sch cfg t_lock r0]> (agent_events d))).
    destruct (process_event_outcome cfg t_end d1 e0
                (claim_update sch cfg t_lock r0))
      as (r' & outcome & Hr' & _ & _ & _ & _ & _ & _ & Hst & Hother).
    { simpl. apply lookup_insert_eq. }
    intros j rj Hj. destruct (decide (j = e0)) as [-> | Hne].
    + rewrite Hr' in Hj. injection Hj as <-.
      destruct Hst as [(_ & _ & -> & _) | (_ & e & _ & _ & [-> | ->])]; done.
    + rewrite (Hother j Hne) in Hj. simpl in Hj.
      rewrite lookup_insert_ne in Hj by done. by apply (Hnone j).
  - intros Hcols d1 eid r Hlock. unfold run_loop_step. rewrite Hlock.
    rewrite (step3_finish_rolls_back _ _ _ _ _ Hcols). cbn [fst snd].
    destruct (dispatch_keeps_queue (step3_start d1 (eid, r)) eid (event_type r)
                (_parse_payload json_loads r)) as (_ & _ & Hn).
    split; [| split].
    + unfold rollback_step3. rewrite Hn. unfold step3_start. simpl.
      rewrite remove_last_entry_app. by destruct d1.
    + destruct (lock_next_event_cases sch cfg t_lock d)
        as [[Heq _] | (e0 & r0 & _ & _ & _ & Heq)]; rewrite Heq in Hlock;
        [discriminate |].
      injection Hlock as <- <- <-. simpl. apply lookup_insert_eq.
    + destruct (lock_next_event_cases sch cfg t_lock d)
        as [[Heq _] | (e0 & r0 & _ & _ & _ & Heq)]; rewrite Heq in Hlock;
        [discriminate |].
      injection Hlock as <- <- <-. apply claim_update_status.
Qed.

Lemma lock_next_event_keeps_unclaimable sch cfg now d eid r :
  ids_below_counter d ->
  agent_events d !! eid = Some r ->
  status_claimable (ev_status r) = false ->
  ids_below_counter (fst (lock_next_event sch cfg now d))
  /\ agent_events (fst (lock_next_event sch cfg now d)) !! eid = Some r
  /\ forall row, snd (lock_next_event sch cfg now d) = Some row -> fst row <> eid.
Proof.
  intros Hwf Hr Hs.
  split; [apply (ids_below_counter_step 0 d); [apply step_lock | done] |].
  destruct (unclaimable_row_untouched sch cfg now d eid r Hr Hs) as [Hnot Hsame].
  split; [done |]. intros [e0 r0] Hrow Heq. simpl in Heq. subst e0.
  by apply (Hnot r0).
Qed.

(** What an activity keeps: the row of a finished event, the ids below
    the counter, and nobody holding the finished event. *)
Lemma run_activity_keeps_finished sch cfg a c eid r :
  status_claimable (ev_status r) = false ->
  ids_below_counter (store c) ->
  agent_events (store c) !! eid = Some r ->
  nobody_holds eid (workers c) ->
  let c' := run_activity json_loads handle sch cfg a c in
  ids_below_counter (store c')
  /\ agent_events (store c') !! eid = Some r
  /\ nobody_holds eid (workers c').
Proof.
  intros Hs Hwf Hr Hheld c'. subst c'.
  destruct a as [now ty p st prio run_at ma cb corr | w t | w | w t | w]; simpl.
  - split; [by apply enqueue_event_ids_below_counter |].
    split; [by apply enqueue_event_keeps_rows | done].
  - destruct (workers c !! w) as [s0 |] eqn:Hw0; [done |].
    destruct (lock_next_event_keeps_unclaimable sch (worker_config cfg w) t
                (store c) eid r Hwf Hr Hs) as (Hwf1 & Hr1 & Hrow).
    destruct (lock_next_event sch (worker_config cfg w) t (store c))
      as [d1 [row |]]; simpl in *; [| done].
    split; [done |]. split; [done |].
    intros w' s Hw'. destruct (decide (w' = w)) as [-> | Hd].
    + rewrite lookup_insert_eq in Hw'. injection Hw' as <-. by apply Hrow.
    + rewrite lookup_insert_ne in Hw' by done. by apply (Hheld w' s).
  - destruct (workers c !! w) as [[row | row] |] eqn:Hw0; try done. simpl.
    split; [done |]. split; [done |].
    intros w' s Hw'. destruct (decide (w' = w)) as [-> | Hd].
    + rewrite lookup_insert_eq in Hw'. injection Hw' as <-.
      apply (Hheld w (Locked row) Hw0).
    + rewrite lookup_insert_ne in Hw' by done. by apply (Hheld w' s).
  - destruct (workers c !! w) as [[row | row] |] eqn:Hw0; try done. simpl.
    pose proof (Hheld w (Started row) Hw0) as Hne. simpl in Hne.
    destruct (step3_finish_other_rows sch (worker_config cfg w) t (store c) row)
      as [Hn Hother].
    split; [by apply step3_finish_ids_below_counter |].
    split; [by rewrite Hother |].
    intros w' s Hw'. apply lookup_delete_Some in Hw' as [_ Hw'].
    by apply (Hheld w' s).
  - destruct (workers c !! w) as [[row | row] |] eqn:Hw0; simpl.
    + split; [done |]. split; [done |].
      intros w' s Hw'. apply lookup_delete_Some in Hw' as [_ Hw'].
      by apply (Hheld w' s).
    + split; [done |]. split; [done |].
      intros w' s Hw'. apply lookup_delete_Some in Hw' as [_ Hw'].
      by apply (Hheld w' s).
    + by repeat split.
Qed.

(** With handlers that leave the queue's tables alone, an event that is
    DONE or FAILED is out of the workers' reach: whatever the workers do and
    in whatever order their transactions come, overlapping or not, on
    whatever table, with processes dying on the way and whatever further
    events are enqueued, its row stays exactly as it is, so a completed
    event is not processed a second time.  The workers start at the top of
    their loops, or anywhere in them, none of them with the finished event
    in its hands. *)
Theorem finished_event_is_left_alone (sch : schema) (cfg : config)
    (acts : list activity) (c : cluster) (eid : Z) (r : event) :
  ids_below_counter (store c) ->
  agent_events (store c) !! eid = Some r ->
  ev_status r = DONE \/ ev_status r = FAILED ->
  nobody_holds eid (workers c) ->
  agent_events (store (run_queue json_loads handle sch cfg acts c)) !! eid
  = Some r.
Proof.
  intros Hwf Hr Hst Hheld.
  assert (Hs : status_claimable (ev_status r) = false)
    by (by destruct Hst as [-> | ->]).
  clear Hst. revert c Hwf Hr Hheld.
  induction acts as [| a acts IH]; intros c Hwf Hr Hheld; simpl; [done |].
  destruct (run_activity_keeps_finished sch cfg a c eid r Hs Hwf Hr Hheld)
    as (Hwf' & Hr' & Hheld').
  by apply IH.
Qed.

End FanOut.

Lemma fan_out_stops_at_first_failure_witness :
  process_event json_loads_braces handle_inventory_raises cfg_w1 20
    queue_one_leased (1, row_with_payload "AppointmentCompleted" (Some "{}"))
  = log_run (mark_failed cfg_w1 20
               (log_run queue_one_leased "worker" (Some 1) "STARTED" None)
               1 "out of stock")
      "worker" (Some 1) "FAILED" (Some "out of stock").
Proof.
  apply (fan_out_stops_at_first_failure json_loads_braces handle_inventory_raises
           cfg_w1 20 queue_one_leased
           (log_run queue_one_leased "worker" (Some 1) "STARTED" None)
           (log_run queue_one_leased "worker" (Some 1) "STARTED" None)
           1 (row_with_payload "AppointmentCompleted" (Some "{}"))
           [APPT] [REV; CASE] INV "out of stock");
    reflexivity.
Defined.

Lemma handle_returns_keeps_queue : handlers_keep_queue handle_returns.
Proof. intros a d ty eid payload. by repeat split. Qed.

Lemma process_event_log_matches_row_witness :
  exists r' outcome,
    agent_events (process_event json_loads_braces handle_returns cfg_w1 20
                    queue_one_leased (1, leased_row)) !! 1 = Some r'
    /\ agent_runs (process_event json_loads_braces handle_returns cfg_w1 20
                     queue_one_leased (1, leased_row))
       = [mkRun "worker" (Some 1) "STARTED" None; outcome]
    /\ locked_by r' = None.
Proof.
  destruct (process_event_log_matches_row json_loads_braces handle_returns
              handle_returns_keeps_queue cfg_w1 20 queue_one_leased 1 leased_row
              eq_refl)
    as (r' & outcome & _ & Hr' & Hlog & _ & _ & Hlock & _).
  exists r', outcome. split; [exact Hr' |]. split; [exact Hlog | exact Hlock].
Defined.

Lemma none_processing_queue_idle : none_processing queue_idle.
Proof.
  intros eid r. unfold queue_idle. simpl. intros Hr.
  destruct (decide (eid = 1)) as [-> | Hne].
  - rewrite lookup_insert_eq in Hr. by injection Hr as <-.
  - rewrite lookup_insert_ne, lookup_empty in Hr by done. discriminate.
Qed.

Lemma loop_step_leaves_none_processing_witness :
  none_processing
    (run_loop_step json_loads_braces handle_returns ensure_schema cfg_w1 10 11
       queue_idle)
  /\ run_loop_step json_loads_braces handle_returns
       (mkSchema true true true true true false true) cfg_w1 10 11 queue_idle
     = fst (lock_next_event (mkSchema true true true true true false true)
              cfg_w1 10 queue_idle).
Proof.
  split.
  - apply (loop_step_leaves_none_processing json_loads_braces handle_returns
             handle_returns_keeps_queue ensure_schema cfg_w1 10 11 queue_idle);
      [reflexivity | apply none_processing_queue_idle].
  - assert (Hlock : lock_next_event (mkSchema true true true true true false true)
                      cfg_w1 10 queue_idle
              = (fst (lock_next_event (mkSchema true true true true true false true)
                        cfg_w1 10 queue_idle),
                 Some (1, mkEvent "CaseUpdated" (Some "{}") PROCESSING 50 1 8 0
                            None (Some 10) None None None None 0 10)))
      by (by vm_compute).
    apply (proj2 (loop_step_leaves_none_processing json_loads_braces
                    handle_returns handle_returns_keeps_queue
                    (mkSchema true true true true true false true)
                    cfg_w1 10 11 queue_idle) eq_refl _ _ _ Hlock).
Defined.

(** * The schema cache *)

Lemma has_column_hit info (cache : gmap string (gmap string bool)) table col cols b :
  cache !! table = Some cols -> cols !! col = Some b ->
  _has_column info cache table col = (cache, b).
Proof.
  intros Ht Hc. unfold _has_column. rewrite Ht. cbn zeta. rewrite Ht. simpl.
  by rewrite Hc.
Qed.

Lemma has_column_records info (cache : gmap string (gmap string bool)) table col :
  exists cols, fst (_has_column info cache table col) !! table = Some cols
    /\ cols !! col = Some (snd (_has_column info cache table col)).
Proof.
  unfold _has_column. destruct (cache !! table) as [cols |] eqn:Ht.
  - rewrite Ht. simpl. destruct (cols !! col) as [b |] eqn:Hc; simpl.
    + by exists cols.
    + eexists. rewrite lookup_insert_eq. split; [done |]. apply lookup_insert_eq.
  - rewrite lookup_insert_eq. simpl. rewrite lookup_empty. simpl.
    eexists. rewrite lookup_insert_eq. split; [done |]. apply lookup_insert_eq.
Qed.

(** [_has_column] asks the database only for a (table, column) pair it has
    no answer for, and then gives the database's answer.  Whatever it
    answers it has in the cache afterwards, so every later call for the same
    pair returns that same answer and leaves the cache alone, even when the
    schema has changed in the meantime; and a call never drops or changes
    the answer cached for any pair. *)
Theorem has_column_answers_from_cache (info info' : string -> string -> bool)
    (cache : gmap string (gmap string bool)) (table col : string) :
  let res := _has_column info cache table col in
  ((forall cols, cache !! table = Some cols -> cols !! col = None)
     -> snd res = info table col)
  /\ _has_column info' (fst res) table col = res
  /\ forall t c cols b, cache !! t = Some cols -> cols !! c = Some b ->
       _has_column info' (fst res) t c = (fst res, b).
Proof.
  intros res. split; [| split].
  - intros Hmiss. subst res. unfold _has_column.
    destruct (cache !! table) as [cols |] eqn:Ht.
    + rewrite Ht. simpl. by rewrite (Hmiss cols eq_refl).
    + rewrite lookup_insert_eq. simpl. by rewrite lookup_empty.
  - destruct (has_column_records info cache table col) as (cols & Ht & Hc).
    fold res in Ht, Hc. rewrite (has_column_hit info' _ table col cols _ Ht Hc).
    by destruct res.
  - intros t c cols b Ht Hc.
    assert (H : exists cols', fst res !! t = Some cols' /\ cols' !! c = Some b).
    { subst res. unfold _has_column.
      destruct (cache !! table) as [tc |] eqn:Htab.
      - rewrite Htab. simpl. destruct (tc !! col) as [b0 |] eqn:Hcol; simpl.
        + by exists cols.
        + destruct (decide (t = table)) as [-> | Hne].
          * rewrite lookup_insert_eq. eexists. split; [done |].
            assert (tc = cols) as -> by congruence.
            rewrite lookup_insert_ne; [done |]. congruence.
          * rewrite lookup_insert_ne by done. by exists cols.
      - rewrite lookup_insert_eq. simpl. rewrite lookup_empty. simpl.
        assert (t <> table) by congruence.
        rewrite lookup_insert_ne, lookup_insert_ne by done. by exists cols. }
    destruct H as (cols' & Ht' & Hc').
    by apply (has_column_hit info' _ t c cols').
Qed.

(** * Properties of the agents' helpers *)

Lemma substring_prefix_length n s : (String.length (substring 0 n s) <= n)%nat.
Proof.
  revert s. induction n as [| n IH]; intros [| c s]; simpl; try lia.
  specialize (IH s). lia.
Qed.

Lemma substring_prefix_chars n s c :
  In c (list_ascii_of_string (substring 0 n s)) -> In c (list_ascii_of_string s).
Proof.
  revert s. induction n as [| n IH]; intros [| a s]; simpl; try tauto.
  intros [-> | H]; [by left | right; by apply IH].
Qed.

Lemma replace_char_removes a b s :
  a <> b -> ~ In a (list_ascii_of_string (replace_char a b s)).
Proof.
  intros Hab. induction s as [| c s IH]; simpl; [tauto |].
  intros [H | H]; [| by apply IH].
  destruct (Ascii.eqb_spec c a); congruence.
Qed.

Lemma replace_char_keeps_out a b c s :
  c <> b -> ~ In c (list_ascii_of_string s) ->
  ~ In c (list_ascii_of_string (replace_char a b s)).
Proof.
  intros Hcb. induction s as [| x s IH]; simpl; [tauto |].
  intros Hout [H | H]; [| apply IH; tauto].
  destruct (Ascii.eqb_spec x a); [congruence | tauto].
Qed.

Lemma or_else_nonempty s fallback : fallback <> "" -> or_else s fallback <> "".
Proof.
  intros Hf. unfold or_else. destruct (String.eqb_spec s ""); congruence.
Qed.

(** ** revenue_agent.py: _norm *)

Lemma replace_char_length a b s :
  String.length (replace_char a b s) = String.length s.
Proof. induction s as [| c s IH]; simpl; [done | by rewrite IH]. Qed.

Lemma substring_whole n s : (String.length s <= n)%nat -> substring 0 n s = s.
Proof.
  revert n. induction s as [| c s IH]; intros n Hn; simpl.
  - by destruct n.
  - destruct n as [| n]; simpl in *; [lia |]. rewrite IH; [done | lia].
Qed.

Lemma replace_char_empty a b s : replace_char a b s = "" -> s = "".
Proof. by destruct s. Qed.

(** Whatever text comes in, and whatever [strip] and [upper] do to it, the
    key that [_norm] returns is never empty, has at most 50 characters and
    contains neither a hyphen nor a space.  When stripping and upper-casing
    leave nothing of the text, the key is ["CONSULTATION"]; when they leave
    a text of at most 50 characters, the key is that text with each hyphen
    and each space replaced by an underscore. *)
Theorem norm_key_shape (py_strip py_upper : string -> string) (s : option string) :
  _norm py_strip py_upper s <> ""
  /\ (String.length (_norm py_strip py_upper s) <= 50)%nat
  /\ (forall c, In c (list_ascii_of_string (_norm py_strip py_upper s)) ->
        c <> "-"%char /\ c <> " "%char)
  /\ (py_upper (py_strip (or_empty s)) = "" ->
      _norm py_strip py_upper s = "CONSULTATION")
  /\ (py_upper (py_strip (or_empty s)) <> "" ->
      (String.length (py_upper (py_strip (or_empty s))) <= 50)%nat ->
      _norm py_strip py_upper s
      = replace_char " " "_"
          (replace_char "-" "_" (py_upper (py_strip (or_empty s))))).
Proof.
  split; [by apply or_else_nonempty |].
  split; [| split; [| split]].
  - unfold _norm, or_else. case_match; [simpl; lia |].
    apply substring_prefix_length.
  - intros c Hc. unfold _norm, or_else in Hc.
    case_match.
    { simpl in Hc. split; intros ->;
        repeat destruct Hc as [Hc | Hc]; try discriminate Hc; done. }
    apply substring_prefix_chars in Hc. split; intros ->.
    + revert Hc. apply replace_char_keeps_out; [discriminate |].
      apply replace_char_removes. discriminate.
    + revert Hc. apply replace_char_removes. discriminate.
  - intros Hempty. unfold _norm. by rewrite Hempty.
  - intros Hne Hlen. unfold _norm.
    rewrite substring_whole by (by rewrite !replace_char_length).
    unfold or_else. case_match eqn:Heq; [| done].
    apply String.eqb_eq in Heq.
    by apply replace_char_empty, replace_char_empty in Heq.
Qed.

Lemma norm_key_shape_witness :
  _norm ascii_strip ascii_upper_string (Some "  root-canal filling ")
    = "ROOT_CANAL_FILLING"
  /\ _norm ascii_strip ascii_upper_string None = "CONSULTATION"
  /\ _norm ascii_strip ascii_upper_string (Some "   ") = "CONSULTATION".
Proof.
  split; [| split].
  - destruct (norm_key_shape ascii_strip ascii_upper_string
                (Some "  root-canal filling ")) as (_ & _ & _ & _ & H).
    rewrite H; [reflexivity | discriminate | simpl; lia].
  - by apply (norm_key_shape ascii_strip ascii_upper_string None).
  - by apply (norm_key_shape ascii_strip ascii_upper_string (Some "   ")).
Defined.

(** ** case_tracking_agent.py: _risk_score *)

(** The risk score lies between 10 and 100.  A closed or resolved case
    scores 10 whatever its review date; for any other stage a review date
    that has come raises the score by 20, capped at 100, and a date that has
    not come, or no date, leaves it. *)
Theorem risk_score_range (py_strip py_upper : string -> string) (today : Z)
    (stage : option string) (next_review_date : option Z) :
  let st := py_upper (py_strip (or_empty stage)) in
  let base := _risk_score py_strip py_upper today stage None in
  let score := _risk_score py_strip py_upper today stage next_review_date in
  10 <= score <= 100
  /\ In base [10; 30; 55; 85]
  /\ (stage_in st ["CLOSED"; "RESOLVED"] = true -> score = 10)
  /\ (stage_in st ["CLOSED"; "RESOLVED"] = false ->
      forall nrd, next_review_date = Some nrd ->
        (nrd <= today -> score = Z.min 100 (base + 20))
        /\ (today < nrd -> score = base))
  /\ (next_review_date = None -> score = base).
Proof.
  intros st base score. subst base score. unfold _risk_score. fold st.
  assert (Hexcl : stage_in st ["CLOSED"; "RESOLVED"] = true ->
                  stage_in st ["BLOCKED"; "URGENT"] = false
                  /\ stage_in st ["IN_TREATMENT"; "ACTIVE"] = false).
  { unfold stage_in. simpl. rewrite !orb_false_r.
    intros H. apply orb_true_iff in H as [H | H];
      apply String.eqb_eq in H; rewrite H; by vm_compute. }
  destruct (stage_in st ["CLOSED"; "RESOLVED"]) eqn:H3.
  - destruct (Hexcl eq_refl) as [-> ->]. simpl.
    destruct next_review_date; simpl; rewrite ?andb_false_r;
      repeat split; try lia; try tauto; discriminate.
  - clear Hexcl. cbn [negb].
    assert (Hbase : In (if stage_in st ["BLOCKED"; "URGENT"] then 85
                        else if stage_in st ["IN_TREATMENT"; "ACTIVE"] then 55
                        else 30) [10; 30; 55; 85]).
    { repeat case_match; simpl; tauto. }
    assert (Hb : 30 <= (if stage_in st ["BLOCKED"; "URGENT"] then 85
                        else if stage_in st ["IN_TREATMENT"; "ACTIVE"] then 55
                        else 30) <= 85).
    { repeat case_match; lia. }
    set (base := if stage_in st ["BLOCKED"; "URGENT"] then 85
                 else if stage_in st ["IN_TREATMENT"; "ACTIVE"] then 55
                 else 30) in *.
    destruct next_review_date as [nrd |].
    + rewrite andb_true_r. destruct (Z.leb_spec nrd today).
      * split; [lia |]. split; [done |]. split; [discriminate |].
        split; [| discriminate]. intros _ n [= <-]. split; [done | lia].
      * split; [lia |]. split; [done |]. split; [discriminate |].
        split; [| discriminate]. intros _ n [= <-]. split; [lia | done].
    + split; [lia |]. split; [done |]. split; [discriminate |].
      split; [| done]. intros _ n H. discriminate H.
Qed.

Lemma risk_score_range_witness :
  _risk_score ascii_strip ascii_upper_string 100 (Some " urgent ") (Some 99) = 100
  /\ _risk_score ascii_strip ascii_upper_string 100 (Some "closed") (Some 99) = 10.
Proof.
  destruct (risk_score_range ascii_strip ascii_upper_string 100
              (Some " urgent ") (Some 99)) as (_ & _ & _ & Hdue & _).
  destruct (risk_score_range ascii_strip ascii_upper_string 100
              (Some "closed") (Some 99)) as (_ & _ & Hclosed & _).
  split.
  - destruct (Hdue eq_refl 99 eq_refl) as [H _]. rewrite H; [reflexivity | lia].
  - apply Hclosed. reflexivity.
Defined.

(** ** What the agents do with what the router sends them *)

Lemma prefix_head a s1 c s2 :
  String.prefix (String a s1) (String c s2) = true -> a = c.
Proof. simpl. by destruct (Ascii.ascii_dec a c). Qed.

(** Every event type that [_dispatch] sends to the case-tracking agent is
    one that agent acts on.  The revenue agent acts on the two appointment
    events, [RevenueDailyTick] and [ARRankAndNotify]; every other type
    beginning with [Revenue] is sent to it alone and it returns without doing
    anything, so such an event is completed with no work done. *)
Theorem agents_act_on_routed_types (ty : string) :
  (In CASE (route ty) -> CaseTrackingAgent_handle ty <> [])
  /\ (In REV (route ty) ->
      RevenueAgent_handle ty <> []
      \/ (String.prefix "Revenue" ty = true /\ ty <> "RevenueDailyTick"))
  /\ (String.prefix "Revenue" ty = true -> ty <> "RevenueDailyTick" ->
      route ty = [REV] /\ RevenueAgent_handle ty = []).
Proof.
  unfold route, CaseTrackingAgent_handle, RevenueAgent_handle.
  repeat match goal with
  | |- context [String.eqb ty ?s] =>
      destruct (String.eqb_spec ty s) as [-> | ?]
  end; simpl;
  try (repeat split; intros; try discriminate; try tauto; try congruence;
       intuition (try discriminate; try congruence); fail).
  destruct (String.prefix "Inventory" ty) eqn:Hinv;
    destruct (String.prefix "Revenue" ty) eqn:Hrev; simpl;
    repeat split; intros; try discriminate; try tauto;
    try (intuition (try discriminate; try congruence); fail).
  (* a type cannot begin with both prefixes *)
  exfalso. destruct ty as [| c ty]; [discriminate |].
  apply prefix_head in Hinv. apply prefix_head in Hrev. congruence.
Qed.

Lemma agents_act_on_routed_types_witness :
  route "RevenueWeeklyReport" = [REV]
  /\ RevenueAgent_handle "RevenueWeeklyReport" = []
  /\ CaseTrackingAgent_handle "CaseGenerateSummary" <> [].
Proof.
  destruct (agents_act_on_routed_types "RevenueWeeklyReport") as (_ & _ & Hrev).
  destruct (agents_act_on_routed_types "CaseGenerateSummary") as (Hcase & _).
  destruct (Hrev eq_refl ltac:(discriminate)) as [H1 H2].
  split; [exact H1 |]. split; [exact H2 |].
  apply Hcase. simpl. tauto.
Defined.

(** ** case_tracking_agent.py: the visits a summary reads *)

Lemma positive_ids_spec py_int items n :
  In n (positive_ids py_int items) ->
  0 < n /\ exists vid, In vid items /\ py_int vid = Some n.
Proof.
  induction items as [| vid items IH]; simpl; [tauto |].
  assert (Hrest : In n (positive_ids py_int items) ->
            0 < n /\ exists v, (vid = v \/ In v items) /\ py_int v = Some n).
  { intros Hin. destruct (IH Hin) as [Hpos (v & Hv & Hn)].
    split; [done |]. exists v. auto. }
  destruct (py_int vid) as [m |] eqn:Hm; [| done].
  destruct (Z.ltb_spec 0 m) as [Hpos | Hle]; [| done].
  intros [<- | Hin]; [| by apply Hrest].
  split; [done |]. exists vid. auto.
Qed.

(** The visit filter of a case summary is built from the entries of the
    [visitIds] list that convert to a positive integer, in their order.
    When the payload has no such list, or no entry of it qualifies, there is
    no filter at all: the [IN (...)] clause is never written with an empty
    list, and every parameter bound to it is a positive id taken from the
    payload. *)
Theorem visit_filter_is_never_empty (py_int : json -> option Z)
    (vlist : option json) :
  let flt := visit_filter (visit_ids_of py_int vlist) in
  (fst flt = "" <-> snd flt = [])
  /\ (snd flt <> [] ->
      fst flt = " AND v.id IN ("
                ++ String.concat "," (List.map (fun _ => "%s") (snd flt)) ++ ")")
  /\ (forall n, In n (snd flt) ->
        0 < n /\ exists items vid,
          vlist = Some (JArray items) /\ In vid items /\ py_int vid = Some n)
  /\ (forall items, vlist = Some (JArray items) ->
        snd flt = positive_ids py_int items)
  /\ ((forall items, vlist <> Some (JArray items)) -> flt = ("", [])).
Proof.
  intros flt. subst flt. unfold visit_filter, visit_ids_of.
  destruct vlist as [[| | | | items |] |];
    try (simpl; repeat split; try done; try tauto; intros; congruence).
  destruct (positive_ids py_int items) as [| n ids] eqn:Hids.
  - simpl. repeat split; try done; try tauto.
    intros items' [= <-]. by rewrite Hids.
  - cbn [fst snd]. split; [split; discriminate |]. split; [done |].
    split; [| split].
    + intros m Hm. rewrite <- Hids in Hm.
      destruct (positive_ids_spec py_int items m Hm) as [? (v & ? & ?)].
      split; [done |]. exists items, v. auto.
    + intros items' [= <-]. by rewrite Hids.
    + intros H. by destruct (H items).
Qed.

Lemma visit_filter_is_never_empty_witness :
  visit_filter (visit_ids_of (fun v => match v with
                                       | JNumber "7" => Some 7
                                       | JNumber "0" => Some 0
                                       | _ => None
                                       end)
                  (Some (JArray [JNumber "0"; JString "x"; JNumber "7"])))
  = (" AND v.id IN (%s)", [7]).
Proof.
  pose proof (visit_filter_is_never_empty
                (fun v => match v with
                          | JNumber "7" => Some 7
                          | JNumber "0" => Some 0
                          | _ => None
                          end)
                (Some (JArray [JNumber "0"; JString "x"; JNumber "7"])))
    as (_ & Hsql & _ & Hids & _).
  specialize (Hids _ eq_refl).
  apply injective_projections; [| exact Hids].
  apply Hsql. rewrite Hids. discriminate.
Defined.

(** Reading more visits never lowers the confidence of a summary, which
    stays between 50 and 85. *)
Theorem summary_confidence_monotone (n m : nat) :
  (n <= m)%nat ->
  summary_confidence n <= summary_confidence m
  /\ 50 <= summary_confidence n <= 85.
Proof.
  intros Hnm. unfold summary_confidence.
  repeat match goal with
  | |- context [(?a <=? ?b)%nat] => destruct (Nat.leb_spec a b)
  | |- context [(?a =? ?b)%nat] => destruct (Nat.eqb_spec a b)
  end; lia.
Qed.

Lemma summary_confidence_monotone_witness :
  summary_confidence 1 <= summary_confidence 5.
Proof. apply (summary_confidence_monotone 1 5). lia. Defined.

(** ** notifications.py: create_notification *)

(** [create_notification] returns 0, writing nothing, when the user id is
    0.  For any other user id the outcome depends on the driver and on the
    table.  With [mysql.connector], the driver that [db.py] takes when it
    can, [conn.begin()] raises; on the [notifications] table that
    [ensure_schema] creates, the [INSERT] is rejected for the columns
    [related_table] and [related_id] it names.  Either way the call raises
    and the table is as before.  Only with [pymysql] and on a table with the
    documented columns does the call return: a fresh id other than 0, every
    row that was there kept, and the row it writes has a title that is never
    empty and at most 200 characters long, a message of at most 2000, a type
    and a channel of at most 50, and the status PENDING when a time is
    scheduled and NEW when none is. *)
Theorem create_notification_row (drv : connector) (shape : notifications_shape)
    (py_strip : string -> string) (now : Z)
    (t : notification_table) (user_id : Z) (title message : option string)
    (notif_type related_table : option string) (related_id scheduled_at : option Z)
    (channel : option string) :
  notification_ids_ok t ->
  let res := create_notification drv shape py_strip now t user_id title message
               notif_type related_table related_id scheduled_at channel in
  (user_id = 0 -> res = (t, Some 0))
  /\ (user_id <> 0 -> drv = mysql_connector \/ shape = as_ensure_schema ->
      res = (t, None))
  /\ (user_id <> 0 -> drv = pymysql -> shape = as_documented ->
      exists nid row,
        snd res = Some nid /\ nid <> 0
        /\ notifications t !! nid = None
        /\ notifications (fst res) !! nid = Some row
        /\ n_user_id row = user_id
        /\ n_title row <> ""
        /\ (String.length (n_title row) <= 200)%nat
        /\ (String.length (n_message row) <= 2000)%nat
        /\ (String.length (n_type row) <= 50)%nat
        /\ (String.length (n_channel row) <= 50)%nat
        /\ (n_status row = "PENDING" <-> scheduled_at <> None)
        /\ (n_status row = "NEW" <-> scheduled_at = None)
        /\ (forall nid' row', notifications t !! nid' = Some row' ->
              notifications (fst res) !! nid' = Some row')
        /\ notification_ids_ok (fst res)).
Proof.
  intros [Hpos Hbelow] res. subst res. unfold create_notification.
  assert (Hfresh : notifications t !! notifications_next_id t = None).
  { destruct (notifications t !! notifications_next_id t) eqn:H; [| done].
    specialize (Hbelow (notifications_next_id t) ltac:(eauto)). lia. }
  destruct (Z.eqb_spec user_id 0) as [-> | Hne].
  - repeat split; done.
  - split; [done |]. split.
    + intros _ [-> | ->]; [done | by destruct drv].
    + intros _ -> ->. eexists _, _. cbn [fst snd].
      split; [done |]. split; [lia |]. split; [done |]. simpl.
      rewrite lookup_insert_eq. split; [done |]. simpl.
      split; [done |]. split; [by apply or_else_nonempty |].
      split.
      { unfold or_else. case_match; [simpl; lia | apply substring_prefix_length]. }
      split.
      { unfold or_else. case_match; [simpl; lia | apply substring_prefix_length]. }
      split; [apply substring_prefix_length |].
      split; [apply substring_prefix_length |].
      split; [destruct scheduled_at; split; try done; try discriminate |].
      split; [destruct scheduled_at; split; try done; try discriminate |].
      split.
      * intros nid row Hrow. rewrite lookup_insert_ne; [done |]. congruence.
      * split; simpl; [lia |]. intros nid Hn.
        destruct (decide (nid = notifications_next_id t)) as [-> | Hd]; [lia |].
        rewrite lookup_insert_ne in Hn by done. specialize (Hbelow nid Hn). lia.
Qed.

Lemma notification_ids_ok_empty : notification_ids_ok no_notifications.
Proof.
  split; [done |]. intros nid [row Hrow]. simpl in Hrow.
  by rewrite lookup_empty in Hrow.
Qed.

Lemma create_notification_row_witness :
  create_notification mysql_connector as_ensure_schema ascii_strip 5
    no_notifications 0 (Some "Hello") (Some "text") None None None None None
  = (no_notifications, Some 0)
  /\ create_notification mysql_connector as_ensure_schema ascii_strip 5
       no_notifications 42 (Some "Hello") (Some "text") None None None None None
     = (no_notifications, None)
  /\ exists nid row,
       snd (create_notification pymysql as_documented ascii_strip 5
              no_notifications 42 (Some "   ") (Some "text") None None None
              None None) = Some nid
       /\ notifications
            (fst (create_notification pymysql as_documented ascii_strip 5
                    no_notifications 42 (Some "   ") (Some "text") None None
                    None None None)) !! nid = Some row
       /\ n_title row <> "".
Proof.
  split; [| split].
  - apply (create_notification_row mysql_connector as_ensure_schema ascii_strip 5
             no_notifications 0 (Some "Hello") (Some "text") None None None
             None None notification_ids_ok_empty). reflexivity.
  - apply (create_notification_row mysql_connector as_ensure_schema ascii_strip 5
             no_notifications 42 (Some "Hello") (Some "text") None None None
             None None notification_ids_ok_empty); [discriminate | by left].
  - destruct (create_notification_row pymysql as_documented ascii_strip 5
                no_notifications 42 (Some "   ") (Some "text") None None None
                None None notification_ids_ok_empty)
      as (_ & _ & Hok).
    destruct Hok as (nid & row & Hid & _ & _ & Hrow & _ & Htitle & _);
      [discriminate | reflexivity | reflexivity |].
    exists nid, row. split; [exact Hid |]. split; [exact Hrow | exact Htitle].
Defined.

Lemma handle_inventory_raises_keeps_queue : handlers_keep_queue handle_inventory_raises.
Proof. intros a d ty eid payload. by destruct a. Qed.

Lemma finished_event_is_left_alone_witness :
  agent_events
    (store (run_queue json_loads_braces handle_inventory_raises ensure_schema
              cfg_w1 overlapping_polls (all_idle (mark_done 9 queue_ABC 3)))) !! 3
  = Some (done_update 9 row_C).
Proof.
  apply (finished_event_is_left_alone json_loads_braces handle_inventory_raises
           handle_inventory_raises_keeps_queue ensure_schema cfg_w1 overlapping_polls
           (all_idle (mark_done 9 queue_ABC 3)) 3 (done_update 9 row_C)).
  - apply (ids_below_counter_step 8 queue_ABC); [apply step_done |].
    apply ids_below_counter_queue_ABC.
  - reflexivity.
  - by left.
  - intros w s Hw. simpl in Hw. by rewrite lookup_empty in Hw.
Defined.

(** Two workers whose iterations overlap write their log entries in the
    order of their statements: STARTED, STARTED, DONE, DONE. *)
Example overlapping_workers_interleave_the_log :
  agent_runs
    (store (run_queue json_loads_braces handle_returns ensure_schema cfg_w1
              [LockNext "W1" 10; LockNext "W2" 11; LogStarted "W1";
               LogStarted "W2"; Finish "W1" 12; Finish "W2" 13]
              (all_idle queue_ABC)))
  = [mkRun "worker" (Some 3) "STARTED" None;
     mkRun "worker" (Some 1) "STARTED" None;
     mkRun "worker" (Some 3) "DONE" None;
     mkRun "worker" (Some 1) "DONE" None].
Proof. by vm_compute. Qed.

(** ** An iteration whose handlers return *)




Lemma has_column_answers_from_cache_witness :
  snd (_has_column (fun _ _ => false)
         (fst (_has_column (fun _ _ => true) ∅ "agent_events" "priority"))
         "agent_events" "priority") = true.
Proof.
  pose proof (has_column_answers_from_cache (fun _ _ => true) (fun _ _ => false)
                ∅ "agent_events" "priority") as (Hask & Hagain & _).
  rewrite Hagain. apply Hask. intros cols H. by rewrite lookup_empty in H.
Defined.
